(** * PrairieLib [lib/sql-db.js]: named-parameter substitution and the
      callback protocol of the pool, query and transaction helpers.

    The development is a shallow embedding:
    - JavaScript values are the inductive [value]; objects keep their own
      properties in a [gmap string _];
    - [paramsToArray] is the source loop, one local variable per argument,
      defined by well-founded recursion on what is left of the template;
    - the functions that talk to the [pg] driver are written in
      continuation-passing style, as in the source, over an explicit
      [World] (driver state, the module variable [pool], event trace).

    The libraries the source calls are taken by their behaviour: lodash
    ([_.isString], [_.isArray], [_.isObjectLike], [_.range], [_.map], and
    the wrapper [_(o)] with its method [has], which is followed into lodash
    because it does not treat every object alike), async-stacktrace ([ERR])
    and [pg], whose answers are a parameter of the development.  Logging
    ([debug]) is left out.  A string is the sequence of its code units, for
    strings whose code units are below 256; a character outside ASCII is
    neither [$] nor a name character and is copied as it is. *)

From Stdlib Require Import String Ascii DecimalString.
From Equations Require Import Equations.
From stdpp Require Import base gmap strings list.

(** ** JavaScript values *)

#[warning="-register-all"] Inductive value :=
| VUndefined
| VNull
| VBool (b : bool)
| VNum (n : Z)
| VStr (s : string)
| VArr (elems : list value)
| VObj (props : gmap string value)
| VFun.

(** [pg] query results: only the row count and the rows are looked at. *)
Record QResult := mkQResult { rowCount : nat; rows : list value }.

(** Error objects: [message] plus the structured [data] that
    [error.addData] attaches. *)
#[warning="-register-all"] Inductive Error :=
| mkError (message : string) (data : list (string * Datum))
with Datum :=
| DStr (s : string)
| DVal (v : value)
| DErr (e : Error)
| DRes (r : option QResult).

Definition message (e : Error) : string := let 'mkError m _ := e in m.
Definition data (e : Error) : list (string * Datum) := let 'mkError _ d := e in d.

(** [new Error(msg)] *)
Definition new_Error (msg : string) : Error := mkError msg [].

(** ** lodash predicates used by the source *)

Definition isString (v : value) : bool :=
  match v with VStr _ => true | _ => false end.

Definition isArray (v : value) : bool :=
  match v with VArr _ => true | _ => false end.

(** [_.isObjectLike]: [typeof v == 'object'] and not [null]. *)
Definition isObjectLike (v : value) : bool :=
  match v with VArr _ | VObj _ => true | _ => false end.

(** [_.has(o, k)] for an object [o] and a key without [.] or [[]: [k] is an
    own property of [o]. *)
Definition has {A} (o : gmap string A) (k : string) : bool :=
  bool_decide (is_Some (o !! k)).

(** ** Strings *)

(** [s.substring(start, end)] for [start <= end] and [s.substring(start)]. *)
Definition substring (s : string) (start end_ : nat) : string :=
  String.substring start (end_ - start) s.

Definition substring_from (s : string) (start : nat) : string :=
  String.substring start (String.length s - start) s.

(** ['' + n] for a non-negative integer [n]. *)
Definition string_of_nat (n : nat) : string :=
  NilZero.string_of_uint (Nat.to_uint n).

(** [xs.join(sep)] *)
Fixpoint join (sep : string) (xs : list string) : string :=
  match xs with
  | [] => ""
  | [x] => x
  | x :: xs' => x +:+ sep +:+ join sep xs'
  end.

(** [_.range(start, end)] for [start <= end]. *)
Definition range (start end_ : nat) : list nat := seq start (end_ - start).

(** ** The regular expression [/\$([-_a-zA-Z0-9]+)/] *)

Definition in_range (lo hi c : ascii) : bool :=
  (nat_of_ascii lo <=? nat_of_ascii c) && (nat_of_ascii c <=? nat_of_ascii hi).

(** The character class [[-_a-zA-Z0-9]]. *)
Definition is_name_char (c : ascii) : bool :=
  Ascii.eqb c "-" || Ascii.eqb c "_" ||
  in_range "a" "z" c || in_range "A" "Z" c || in_range "0" "9" c.

(** Greedy [[-_a-zA-Z0-9]*] at the start of [s]. *)
Fixpoint name_prefix (s : string) : string :=
  match s with
  | String c s' => if is_name_char c then String c (name_prefix s') else ""
  | EmptyString => ""
  end.

(** The match object of [re.exec]: [result.index], [result[0]], [result[1]]. *)
Record RegExpMatch := mkMatch { index : nat; group0 : string; group1 : string }.

(** [re.exec(s)]: leftmost match, [None] for [null].  The regular expression
    has no [g] flag, so every call starts at the beginning of [s]. *)
Fixpoint re_exec (s : string) : option RegExpMatch :=
  match s with
  | EmptyString => None
  | String c s' =>
      match Ascii.eqb c "$", name_prefix s' with
      | true, String d n => Some (mkMatch 0 (String c (String d n)) (String d n))
      | _, _ =>
          match re_exec s' with
          | Some r => Some (mkMatch (S (index r)) (group0 r) (group1 r))
          | None => None
          end
      end
  end.

(** ** The binding object [const map = {}]

    [map] is an ordinary object whose prototype is [Object.prototype]; its
    own properties are kept in a [gmap].  Assignment and read go through the
    prototype chain, which matters for one key: [Object.prototype] has the
    accessor property [__proto__].  Its setter ignores a value that is
    neither an object nor [null] (ECMAScript, B.2.2.1.2), so assigning a
    string to [map['__proto__']] creates no own property, and its getter
    yields the prototype, which string concatenation prints as
    ["[object Object]"]. *)

Definition proto_key : string := "__proto__".

(** [map[k] = s] *)
Definition map_set (map : gmap string string) (k s : string) : gmap string string :=
  if decide (k = proto_key) then map else <[k:=s]> map.

(** [map[k]], as a string operand of [+], for a key that is an own
    property, or [__proto__], or found nowhere *)
Definition map_get (map : gmap string string) (k : string) : string :=
  match map !! k with
  | Some s => s
  | None => if decide (k = proto_key) then "[object Object]" else "undefined"
  end.

(** [params[k]] for an own property [k]. *)
Definition params_get (params : gmap string value) (k : string) : value :=
  default VUndefined (params !! k).

(** ** The wrapper [_(o)]

    [_(o)] does not wrap every object alike (lodash 4, [lodash],
    [wrapperClone], [copyArray], [mixin], [baseWrapperValue], [has]): an
    object that has an own property [__wrapped__] is taken for a wrapper
    and cloned, so that [has] then looks at [o.__wrapped__] and not at [o].
    Calls into lodash therefore end in one of three ways. *)
Inductive Outcome (A : Type) :=
| Returns (a : A)
| Throws   (* a [TypeError] is thrown *)
| Beyond.  (* the run goes on in a function or an object that the
              embedding has no description of *)
Arguments Returns {A}.
Arguments Throws {A}.
Arguments Beyond {A}.

#[export] Instance Outcome_ret : MRet Outcome := @Returns.
#[export] Instance Outcome_bind : MBind Outcome := fun A B f x =>
  match x with Returns a => f a | Throws => Throws | Beyond => Beyond end.

(** The fields of a wrapper that [has] depends on. *)
Record LodashWrapper := mkWrapper {
  __wrapped__ : value;
  __actions__ : list value;
  __chain__ : bool
}.

(** [!!v], for the value of a property that may be absent. *)
Definition truthy (v : option value) : bool :=
  match v with
  | None | Some VUndefined | Some VNull => false
  | Some (VBool b) => b
  | Some (VNum n) => negb (n =? 0)%Z
  | Some (VStr s) => negb (String.eqb s "")
  | Some (VArr _) | Some (VObj _) | Some VFun => true
  end.

(** [copyArray(source)] reads [source.length] and then [source[0]],
    [source[1]], ...: it throws on [undefined] and [null], copies an array,
    splits a string into its characters, and makes [[undefined]] of a
    number or a boolean, whose [length] is [undefined].  What it makes of
    another object or of a function depends on their [length] and is not
    followed. *)
Definition copyArray (source : option value) : Outcome (list value) :=
  match source with
  | None | Some VUndefined | Some VNull => Throws
  | Some (VArr elems) => Returns elems
  | Some (VStr s) =>
      Returns ((fun c => VStr (String c "")) <$> list_ascii_of_string s)
  | Some (VBool _) | Some (VNum _) => Returns [VUndefined]
  | Some (VObj _) | Some VFun => Beyond
  end.

(** [_(v)]: [new LodashWrapper(v)], unless [v] is an object other than an
    array with an own [__wrapped__], which goes through [wrapperClone]. *)
Definition lodash (v : value) : Outcome LodashWrapper :=
  match v with
  | VObj o =>
      match o !! "__wrapped__" with
      | Some w =>
          acts ← copyArray (o !! "__actions__");
          Returns (mkWrapper w acts (truthy (o !! "__chain__")))
      | None => Returns (mkWrapper v [] false)
      end
  | _ => Returns (mkWrapper v [] false)
  end.

(** [action.func.apply(action.thisArg, arrayPush([result], action.args))]:
    a [TypeError] when [action] has no property [func] or when that is
    neither a function nor an object; the call of a function is not
    followed. *)
Definition run_action (result action : value) : Outcome value :=
  match action with
  | VUndefined | VNull | VBool _ | VNum _ | VStr _ | VArr _ => Throws
  | VObj o =>
      match o !! "func" with
      | None | Some VUndefined | Some VNull | Some (VBool _) | Some (VNum _)
      | Some (VStr _) | Some (VArr _) => Throws
      | Some (VObj _) | Some VFun => Beyond
      end
  | VFun => Beyond
  end.

(** [baseWrapperValue(value, actions)]: the pending actions are run on the
    wrapped value, in order. *)
Fixpoint baseWrapperValue (result : value) (actions : list value) : Outcome value :=
  match actions with
  | [] => Returns result
  | action :: actions' =>
      result' ← run_action result action;
      baseWrapperValue result' actions'
  end.

(** The own keys of an array or a string of length [n] that are not
    [length]: the indices below [n], written without leading zeros. *)
Definition is_index_below (n : nat) (k : string) : bool :=
  existsb (fun i => String.eqb (string_of_nat i) k) (seq 0 n).

(** [_.has(object, k)] for any value and a key without [.] or [[]: [false]
    for [undefined], [null], a number and a boolean, the test for an own
    property otherwise; the own properties of a function are not
    described. *)
Definition has_value (object : value) (k : string) : Outcome bool :=
  match object with
  | VUndefined | VNull | VBool _ | VNum _ => Returns false
  | VObj o => Returns (has o k)
  | VArr elems =>
      Returns (String.eqb k "length" || is_index_below (length elems) k)
  | VStr s =>
      Returns (String.eqb k "length" || is_index_below (String.length s) k)
  | VFun => Beyond
  end.

(** [wrapper.has(k)], as the source uses it: under [!].  In a chain
    ([__chain__] set) the method answers with a new wrapper, which is
    truthy; otherwise it applies [_.has] to the value of the wrapper. *)
Definition wrapper_has (wrapper : LodashWrapper) (k : string) : Outcome bool :=
  if __chain__ wrapper then
    _ ← lodash (__wrapped__ wrapper);
    Returns true
  else
    v ← baseWrapperValue (__wrapped__ wrapper) (__actions__ wrapper);
    has_value v k.

(** [_(o).has(k)] *)
Definition lodash_has (o : value) (k : string) : Outcome bool :=
  wrapper ← lodash o;
  wrapper_has wrapper k.

(** The functions every object inherits from [Object.prototype]. *)
Definition Object_prototype_functions : list string :=
  ["constructor"; "__defineGetter__"; "__defineSetter__"; "hasOwnProperty";
   "__lookupGetter__"; "__lookupSetter__"; "isPrototypeOf";
   "propertyIsEnumerable"; "toString"; "valueOf"; "toLocaleString"].

(** [params[k]], whether or not [k] is an own property: what is not found
    in the object is looked up in [Object.prototype], where [__proto__]
    yields that prototype itself, which is not described. *)
Definition params_read (params : gmap string value) (k : string) : Outcome value :=
  match params !! k with
  | Some v => Returns v
  | None =>
      if decide (k = proto_key) then Beyond
      else if decide (k ∈ Object_prototype_functions) then Returns VFun
      else Returns VUndefined
  end.

(** [map[k]] as a string operand of [+], whether or not [k] is an own
    property: the text of an inherited function is not described. *)
Definition map_read (map : gmap string string) (k : string) : Outcome string :=
  match map !! k with
  | Some s => Returns s
  | None =>
      if decide (k ∈ Object_prototype_functions) then Beyond
      else Returns (map_get map k)
  end.

(** The binding object as a value. *)
Definition map_value (map : gmap string string) : value := VObj (VStr <$> map).

(** The key that makes [_(o)] take [o] for a wrapper. *)
Definition wrapped_key : string := "__wrapped__".

(** ** [paramsToArray] *)

(** What [paramsToArray] passes to its callback: [callback(err)] or
    [callback(null, sql, params)].  The callback is called synchronously
    and at most once, so the function is embedded as a function to these
    arguments; when a call into lodash does not return, neither does
    [paramsToArray], and the callback is not called. *)
Inductive Substituted :=
| SubstErr (err : Error)
| SubstOk (newSql : string) (newParams : list value)
| SubstThrows
| SubstBeyond.

(** ['$' + n] *)
Definition dollar (n : nat) : string := "$" +:+ string_of_nat n.

(** The block guarded by [if (!_(map).has(v))]: the early [return] on a
    missing parameter is [inl], otherwise the updated
    [(nParams, map, paramsArray)]. *)
Definition bind_name (params : gmap string value) (v : string)
    (nParams : nat) (map : gmap string string) (paramsArray : list value)
  : Outcome (Error + (nat * gmap string string * list value)) :=
  bound ← lodash_has (map_value map) v;
  if negb bound then
    present ← lodash_has (VObj params) v;
    if negb present then Returns (inl (new_Error ("Missing parameter: " +:+ v)))
    else
      x ← params_read params v;
      match x with
      | VArr elems =>
          Returns (inr (nParams + length elems,
               map_set map v
                 ("ARRAY[" +:+
                  join "," (dollar <$> range (nParams + 1) (nParams + length elems + 1))
                  +:+ "]"),
               paramsArray ++ elems))
      | x =>
          Returns (inr (nParams + 1,
               map_set map v (dollar (nParams + 1)),
               paramsArray ++ [x]))
      end
  else Returns (inr (nParams, map, paramsArray)).

(** The [while] loop of [paramsToArray], with the local variables as
    arguments; it ends with the final [callback(null, processedSql,
    paramsArray)] or with the early [return callback(new Error(...))].
    Every match takes at least its [$] off [remainingSql], which is what
    makes the loop stop. *)
Equations? loop (params : gmap string value)
    (processedSql remainingSql : string) (nParams : nat)
    (map : gmap string string) (paramsArray : list value) : Substituted
  by wf (String.length remainingSql) lt :=
  loop params processedSql remainingSql nParams map paramsArray
    with Equations.Prop.Logic.inspect (re_exec remainingSql) := {
    | exist _ None _ => SubstOk (processedSql +:+ remainingSql) paramsArray
    | exist _ (Some result) Hre
        with bind_name params (group1 result) nParams map paramsArray := {
        | Throws => SubstThrows
        | Beyond => SubstBeyond
        | Returns (inl err) => SubstErr err
        | Returns (inr (nParams', map', paramsArray'))
            with map_read map' (group1 result) := {
            | Throws => SubstThrows
            | Beyond => SubstBeyond
            | Returns bound =>
                loop params
                  (processedSql +:+ substring remainingSql 0 (index result)
                     +:+ bound)
                  (substring_from remainingSql
                     (index result + String.length (group0 result)))
                  nParams' map' paramsArray' } } }.
Proof.
  assert (forall s n m,
    String.length (String.substring n m s) <= String.length s) as Hle.
  { induction s as [|c s IH]; intros [|n] [|m]; simpl; try lia.
    - specialize (IH 0 m). lia.
    - specialize (IH n 0). lia.
    - specialize (IH n (S m)). lia. }
  clear - Hre Hle. revert result Hre.
  induction remainingSql as [|c s IH]; intros r Hr; simpl in Hr; [discriminate|].
  unfold substring_from in *.
  destruct (Ascii.eqb c "$"), (name_prefix s) as [|d n];
    try (injection Hr as <-; simpl;
         match goal with |- context [String.substring ?a ?b s] =>
           specialize (Hle s a b) end; lia);
    destruct (re_exec s) as [r'|]; try discriminate Hr;
    injection Hr as <-; simpl; specialize (IH r' eq_refl); lia.
Qed.

Definition paramsToArray (sql params : value) : Substituted :=
  match sql with
  | VStr sql =>
      match params with
      | VArr elems => SubstOk sql elems
      | VObj props => loop props "" sql 0 ∅ []
      | _ => SubstErr (new_Error "params must be array or object")
      end
  | _ => SubstErr (new_Error "SQL must be a string")
  end.

(** ** The template, read declaratively

    [placeholders s] lists the names of the tokens [$name] of [s] from left
    to right: every [$] that is followed by at least one name character
    starts a token, and the name is the longest run of name characters. *)
Fixpoint placeholders (s : string) : list string :=
  match s with
  | EmptyString => []
  | String c s' =>
      match Ascii.eqb c "$", name_prefix s' with
      | true, String d n => String d n :: placeholders s'
      | _, _ => placeholders s'
      end
  end.

(** [render f skip s] copies [s] and writes [f name] in place of every token
    [$name]; [skip] counts the characters of the token being replaced that
    are still to be dropped. *)
Fixpoint render (f : string -> string) (skip : nat) (s : string) : string :=
  match s with
  | EmptyString => ""
  | String c s' =>
      match skip with
      | S k => render f k s'
      | 0 =>
          match Ascii.eqb c "$", name_prefix s' with
          | true, String d n =>
              f (String d n) +:+ render f (String.length (String d n)) s'
          | _, _ => String c (render f 0 s')
          end
      end
  end.

(** The block [if (!_(map).has(v)) { ... }] when neither [map] nor
    [params] has an own [__wrapped__], so that both calls of [has] are
    tests for an own property and [params[v]] is read from the object. *)
Definition bind_own (params : gmap string value) (v : string)
    (nParams : nat) (map : gmap string string) (paramsArray : list value)
  : Error + (nat * gmap string string * list value) :=
  if negb (has map v) then
    if negb (has params v) then inl (new_Error ("Missing parameter: " +:+ v))
    else
      match params_get params v with
      | VArr elems =>
          inr (nParams + length elems,
               map_set map v
                 ("ARRAY[" +:+
                  join "," (dollar <$> range (nParams + 1) (nParams + length elems + 1))
                  +:+ "]"),
               paramsArray ++ elems)
      | x =>
          inr (nParams + 1,
               map_set map v (dollar (nParams + 1)),
               paramsArray ++ [x])
      end
  else inr (nParams, map, paramsArray).

(** That block run over a list of names. *)
Fixpoint bind_all (params : gmap string value) (names : list string)
    (nParams : nat) (map : gmap string string) (paramsArray : list value)
  : Error + (nat * gmap string string * list value) :=
  match names with
  | [] => inr (nParams, map, paramsArray)
  | v :: names' =>
      match bind_own params v nParams map paramsArray with
      | inl err => inl err
      | inr (nParams', map', paramsArray') =>
          bind_all params names' nParams' map' paramsArray'
      end
  end.

(** The values a name contributes to the positional sequence. *)
Definition slot_values (params : gmap string value) (x : string) : list value :=
  match params_get params x with
  | VArr elems => elems
  | v => [v]
  end.

(** The reference a name is bound to when [offset] slots are taken. *)
Definition reference (params : gmap string value) (offset : nat) (x : string) : string :=
  match params_get params x with
  | VArr elems =>
      "ARRAY[" +:+ join "," (dollar <$> seq (offset + 1) (length elems)) +:+ "]"
  | _ => dollar (offset + 1)
  end.

(** The names of [names] that are not in [seen], each at its first
    occurrence. *)
Fixpoint first_occurrences (seen : gset string) (names : list string) : list string :=
  match names with
  | [] => []
  | x :: names' =>
      if decide (x ∈ seen) then first_occurrences seen names'
      else x :: first_occurrences ({[x]} ∪ seen) names'
  end.

(** The reference of [x] when the names of [names] are allotted slots one
    after the other, starting after [offset]. *)
Fixpoint binding (params : gmap string value) (names : list string)
    (offset : nat) (x : string) : string :=
  match names with
  | [] => "undefined"
  | y :: names' =>
      if decide (x = y) then reference params offset y
      else binding params names' (offset + length (slot_values params y)) x
  end.

(** The positional values of a list of names. *)
Definition all_values (params : gmap string value) (names : list string) : list value :=
  concat (slot_values params <$> names).

(** A name is settled in [map] when reading [map[k]] no longer changes:
    it is an own property, or it is the key that can never become one. *)
Definition settled (map : gmap string string) (k : string) : Prop :=
  is_Some (map !! k) \/ k = proto_key.

(** Only names of [params] get bound. *)
Definition bound_in (params : gmap string value) (m : gmap string string) : Prop :=
  forall k, is_Some (m !! k) -> is_Some (params !! k).

(** ** The [pg] driver, the world and the event trace *)

Definition Client := nat.

(** The argument of the release function: [done()] is [None]; a truthy
    argument ([done(client)], [done(err)]) makes the pool discard the
    client instead of keeping it. *)
Inductive ReleaseArg :=
| RClient (c : Client)
| RError (e : Error).

(** What [pool.connect] passes to its callback: [(null, client, done)], or
    [(err, client, done)] with a client that may be [undefined]. *)
Inductive Connected :=
| ConnOk (client : Client)
| ConnErr (err : Error) (client : option Client).

(** What the program does to the outside, in order. *)
Inductive event :=
| EPoolOnError
| EConnect (r : Connected)
| EQuery (c : Client) (sql : string) (params : option (list value))
| ERelease (c : Client) (arg : option ReleaseArg)
| ESetTimeout (ms : N)
| ECallback (err : option Error)
| EResults (r : Error + QResult)
| EClient (r : Error + Client)
| EThrow    (* a [TypeError] leaves the function; no callback is called *)
| EBeyond.  (* the run goes on where the embedding has no description *)

(** The driver is a collaborator: its behaviour is a parameter. [D] is its
    internal state. *)
Class Driver (D : Type) := {
  (** [new pg.Pool(pgConfig)]; [Some err] when the constructor throws *)
  new_Pool : value -> D -> option Error * D;
  (** [pool.connect(cb)] *)
  connect : D -> Connected * D;
  (** [client.query(sql, params, cb)]; [cb(err)] or [cb(null, result)] *)
  pg_query : Client -> string -> option (list value) -> D -> (Error + QResult) * D;
  (** [done(arg)] *)
  release : Client -> option ReleaseArg -> D -> D
}.

(** [pool] is the module variable: [false] for [null]. *)
Record World (D : Type) := mkWorld {
  driver : D;
  pool : bool;
  trace : list event
}.
Arguments mkWorld {D}.
Arguments driver {D}.
Arguments pool {D}.
Arguments trace {D}.

(** [_.assign(fields, {k: v})]: a later value for a key replaces the
    earlier one. *)
Fixpoint assign_field (fields : list (string * Datum)) (k : string) (v : Datum)
  : list (string * Datum) :=
  match fields with
  | [] => [(k, v)]
  | (k', v') :: fields' =>
      if decide (k' = k) then (k, v) :: fields'
      else (k', v') :: assign_field fields' k v
  end.

Definition assign (fields new : list (string * Datum)) : list (string * Datum) :=
  foldl (fun acc kv => assign_field acc kv.1 kv.2) fields new.

(** Modelled from the spec: [error.addData(err, data)] of lib/error.js,
    which is not among the sources.  The spec has it attach structured
    context to an error: the fields of [data] are assigned to [err.data]
    and the error, otherwise unchanged, is returned. *)
Definition addData (err : Error) (new : list (string * Datum)) : Error :=
  mkError (message err) (assign (data err) new).

(** [err.message = msg] *)
Definition set_message (err : Error) (msg : string) : Error :=
  mkError msg (data err).

(** [JSON.parse(JSON.stringify(err))] followed by
    [sqlError.message = err.message]: a copy of the error. *)
Definition sqlError_of (err : Error) : Datum := DErr err.

Definition retryTimeouts : list N := [500; 1000; 2000; 5000; 10000]%N.

(** [err.data[k]] *)
Fixpoint lookup_field (fields : list (string * Datum)) (k : string) : option Datum :=
  match fields with
  | [] => None
  | (k', v) :: fields' => if decide (k' = k) then Some v else lookup_field fields' k
  end.

Definition field (err : Error) (k : string) : option Datum :=
  lookup_field (data err) k.

Section Db.

Context {D : Type} {drv : Driver D}.

(** A piece of JavaScript run to completion, callbacks included.  The
    driver answers at once, so a callback registered with the driver is
    the continuation of the call. *)
Definition Cmd : Type := World D -> World D.

(** Node callbacks. [callback(err)] with [err] an error or [null];
    [callback(err)] or [callback(null, result)];
    [callback(err)] or [callback(null, client, done)]. *)
Definition Done : Type := option ReleaseArg -> Cmd.
Definition Callback : Type := option Error -> Cmd.
Definition ResultsCallback : Type := Error + QResult -> Cmd.
Definition ClientCallback : Type := Error + Client * Done -> Cmd.

(** [return;] *)
Definition ret : Cmd := fun w => w.

Definition then_ (c1 c2 : Cmd) : Cmd := fun w => c2 (c1 w).

Definition emit (e : event) : Cmd :=
  fun w => mkWorld (driver w) (pool w) (trace w ++ [e]).

Definition with_driver (d : D) : Cmd :=
  fun w => mkWorld d (pool w) (trace w).

(** The release function that [pool.connect] hands out with [c]. *)
Definition done_of (c : Client) : Done :=
  fun arg w => emit (ERelease c arg) (with_driver (release c arg (driver w)) w).

Definition pool_connect (k : Connected -> Cmd) : Cmd :=
  fun w =>
    let '(r, d) := connect (driver w) in
    k r (emit (EConnect r) (with_driver d w)).

Definition client_query (c : Client) (sql : string)
    (params : option (list value)) (k : Error + QResult -> Cmd) : Cmd :=
  fun w =>
    let '(r, d) := pg_query c sql params (driver w) in
    k r (emit (EQuery c sql params) (with_driver d w)).

Definition setTimeout (k : Cmd) (ms : N) : Cmd :=
  then_ (emit (ESetTimeout ms)) k.
End Db.

Arguments Cmd : clear implicits.
Arguments Done : clear implicits.
Arguments Callback : clear implicits.
Arguments ResultsCallback : clear implicits.
Arguments ClientCallback : clear implicits.

Notation "c1 >> c2" := (then_ c1 c2) (at level 62, right associativity).

(** ** The exported functions

    [ERR(err, callback)] of async-stacktrace calls [callback(err)] and
    returns true when [err] is set, and does nothing otherwise; the idiom
    [if (ERR(err, callback)) return;] is the [inl]/[Some] branch of the
    matches below. *)
Section Api.
Context {D : Type} {drv : Driver D}.

Definition getClient (callback : ClientCallback D) : Cmd D :=
  fun w =>
    if negb (pool w) then
      callback (inl (new_Error "Connection pool is not open")) w
    else
      pool_connect (fun r =>
        match r with
        | ConnErr err client =>
            match client with
            | Some c => done_of c (Some (RClient c))
            | None => ret
            end >> callback (inl err)
        | ConnOk client => callback (inr (client, done_of client))
        end) w.

Definition queryWithClient (client : Client) (sql params : value)
    (callback : ResultsCallback D) : Cmd D :=
  match paramsToArray sql params with
  | SubstErr err =>
      callback (inl (addData err [("sql", DVal sql); ("sqlParams", DVal params)]))
  | SubstOk newSql newParams =>
      client_query client newSql (Some newParams) (fun r =>
        match r with
        | inl err =>
            callback (inl (addData err
              [("sqlError", sqlError_of err); ("sql", DVal sql);
               ("sqlParams", DVal params); ("result", DRes None)]))
        | inr result => callback (inr result)
        end)
  | SubstThrows => emit EThrow
  | SubstBeyond => emit EBeyond
  end.

Definition rollbackWithClient (client : Client) (done : Done D)
    (callback : Callback D) : Cmd D :=
  client_query client "ROLLBACK;" None (fun r =>
    match r with
    | inl err => done (Some (RError err)) >> callback (Some err)
    | inr _ => done None >> callback None
    end).

Definition beginTransaction (callback : ClientCallback D) : Cmd D :=
  getClient (fun r =>
    match r with
    | inl err => callback (inl err)
    | inr (client, done) =>
        queryWithClient client (VStr "START TRANSACTION;") (VArr []) (fun r =>
          match r with
          | inl err =>
              rollbackWithClient client done (fun rollbackErr =>
                match rollbackErr with
                | Some rollbackErr => callback (inl rollbackErr)
                | None => callback (inl err)
                end)
          | inr _ => callback (inr (client, done))
          end)
    end).

Definition endTransaction (client : Client) (done : Done D)
    (err : option Error) (callback : Callback D) : Cmd D :=
  match err with
  | Some err =>
      rollbackWithClient client done (fun rollbackErr =>
        match rollbackErr with
        | Some rollbackErr =>
            callback (Some (addData rollbackErr
              [("prevErr", DErr err); ("rollback", DStr "fail")]))
        | None =>
            callback (Some (addData err [("rollback", DStr "success")]))
        end)
  | None =>
      queryWithClient client (VStr "COMMIT") (VArr []) (fun r =>
        match r with
        | inl err => done None >> callback (Some err)
        | inr _ => done None >> callback None
        end)
  end.

(** The closure [handleError] of [query], for an [err] that is set. *)
Definition handleError (sql params : value) (callback : ResultsCallback D)
    (client : option Client) (err : Error) : Cmd D :=
  match client with
  | Some c => done_of c (Some (RClient c))
  | None => ret
  end >>
  callback (inl (addData err
    [("sqlError", sqlError_of err); ("sql", DVal sql); ("sqlParams", DVal params)])).

Definition query (sql params : value) (callback : ResultsCallback D)
  : Cmd D :=
  fun w =>
    if negb (pool w) then
      callback (inl (new_Error "Connection pool is not open")) w
    else
      pool_connect (fun r =>
        match r with
        | ConnErr err client => handleError sql params callback client err
        | ConnOk client =>
            match paramsToArray sql params with
            | SubstErr err =>
                callback (inl (addData err
                  [("sql", DVal sql); ("sqlParams", DVal params)]))
            | SubstOk newSql newParams =>
                client_query client newSql (Some newParams) (fun r =>
                  match r with
                  | inl err =>
                      handleError sql params callback (Some client) err
                  | inr result =>
                      done_of client None >> callback (inr result)
                  end)
            | SubstThrows => emit EThrow
            | SubstBeyond => emit EBeyond
            end
        end) w.

(** The closure [tryConnect] of [init]; [retryCount] is its captured
    counter. *)
Equations? tryConnect (callback : Callback D) (retryCount : nat) : Cmd D
  by wf (length retryTimeouts - retryCount) lt :=
  tryConnect callback retryCount :=
    pool_connect (fun r =>
      match r with
      | ConnErr err client =>
          match client with
          | Some c => done_of c (Some (RClient c))
          | None => ret
          end >>
          match decide (length retryTimeouts <= retryCount) with
          | left _ =>
              callback (Some (set_message err
                ("Couldn't connect to Postgres after " +:+
                 string_of_nat (length retryTimeouts) +:+
                 " retries: " +:+ message err)))
          | right _ =>
              setTimeout (tryConnect callback (S retryCount))
                (default 0%N (retryTimeouts !! retryCount))
          end
      | ConnOk client => done_of client None >> callback None
      end).
Proof. lia. Qed.

(** [idleErrorHandler] is only registered ([pool.on('error', ...)]); the
    pool calls it later, outside [init]. *)
Definition init (pgConfig : value) (idleErrorHandler : Error -> Client -> Cmd D)
    (callback : Callback D) : Cmd D :=
  fun w =>
    match new_Pool pgConfig (driver w) with
    | (Some err, d) =>
        callback (Some (addData err [("pgConfig", DVal pgConfig)]))
          (with_driver d w)
    | (None, d) =>
        (emit EPoolOnError >> tryConnect callback 0)
          (mkWorld d true (trace w))
    end.

(** The caller of a transaction: [beginTransaction], then at once
    [endTransaction] with the given outcome. *)
Definition transaction (outcome : option Error) (callback : Callback D) : Cmd D :=
  beginTransaction (fun r =>
    match r with
    | inl err => callback (Some err)
    | inr (client, done) => endTransaction client done outcome callback
    end).

End Api.

(** ** A driver that answers from a script

    Used to run the functions on concrete scenarios: every call to the
    driver takes the next reply of the script. *)
Inductive Reply :=
| RPool (r : option Error)
| RConnect (r : Connected)
| RQuery (r : Error + QResult).

#[export] Instance scripted : Driver (list Reply) := {
  new_Pool _ s :=
    match s with RPool r :: s' => (r, s') | _ => (None, s) end;
  connect s :=
    match s with
    | RConnect r :: s' => (r, s')
    | _ => (ConnErr (new_Error "connect ECONNREFUSED") None, s)
    end;
  pg_query _ _ _ s :=
    match s with
    | RQuery r :: s' => (r, s')
    | _ => (inl (new_Error "Connection terminated"), s)
    end;
  release _ _ s := s
}.

(** Callbacks that record their argument in the trace. *)
Definition record_callback : Callback (list Reply) :=
  fun err => emit (ECallback err).

Definition record_results : ResultsCallback (list Reply) :=
  fun r => emit (EResults r).

Definition record_client : ClientCallback (list Reply) :=
  fun r => emit (EClient (match r with inl e => inl e | inr (c, _) => inr c end)).

(** Counting in a trace. *)
Definition is_release (e : event) : bool :=
  match e with ERelease _ _ => true | _ => false end.

Definition is_statement (text : string) (e : event) : bool :=
  match e with EQuery _ sql _ => bool_decide (sql = text) | _ => false end.

Definition count (p : event -> bool) (t : list event) : nat :=
  length (filter (fun e => p e = true) t).

Definition timeouts (t : list event) : list N :=
  omap (fun e => match e with ESetTimeout ms => Some ms | _ => None end) t.

(** The connection attempts of a trace, in order. *)
Definition connects (t : list event) : list Connected :=
  omap (fun e => match e with EConnect r => Some r | _ => None end) t.

(** The error [init] reports when the retries are used up. *)
Definition exhausted (last_err : Error) : Error :=
  set_message last_err
    ("Couldn't connect to Postgres after 5 retries: " +:+ message last_err).

(** An attempt that the driver answered with an error. *)
Definition failed (r : Connected) : Prop :=
  match r with ConnErr _ _ => True | ConnOk _ => False end.

(** What one connection attempt leaves in the trace: the attempt, and
    right after it the release of the client that came with the answer
    ([done()] after a success, [done(client)] after a failure that handed
    out a client all the same). *)
Definition attempt (r : Connected) : list event :=
  EConnect r ::
  match r with
  | ConnOk c => [ERelease c None]
  | ConnErr _ (Some c) => [ERelease c (Some (RClient c))]
  | ConnErr _ None => []
  end.

(** The trace of a run of attempts: every attempt of [rs] is followed by
    its delay, the first by the first of [delays], and so on; the [final]
    attempt closes the run. *)
Definition retry_trace (delays : list N) (rs : list Connected)
    (final : Connected) : list event :=
  concat (zip_with (fun r ms => attempt r ++ [ESetTimeout ms]) rs delays)
  ++ attempt final.

(** Worlds for the scenarios: an open pool whose driver follows a script. *)
Definition no_rows : QResult := mkQResult 0 [].

Definition scripted_world (script : list Reply) : World (list Reply) :=
  mkWorld script true [].

(** ** The rest of the module

    The helpers for logging, [close], the row-count variants and the
    stored-procedure calls. *)

(** [s.replace(/\n/g, '\\n')]: every line feed becomes a backslash and
    an [n]. *)
Fixpoint replace_newlines (s : string) : string :=
  match s with
  | EmptyString => ""
  | String c s' =>
      if Ascii.eqb c "010" then String "\" (String "n" (replace_newlines s'))
      else String c (replace_newlines s')
  end.

(** The one-character string holding a double quote. *)
Definition quote : string := String "034" EmptyString.

(** Lengths and positions count code units, as [s.length] and
    [s.substring] do. *)
Definition debugString (s : value) : string :=
  match s with
  | VStr s =>
      let s := replace_newlines s in
      let s := if 78 <? String.length s then substring s 0 75 +:+ "..." else s in
      quote +:+ s +:+ quote
  | _ => "NOT A STRING"
  end.

(** Modelled from the spec: [error.makeWithData(message, data)] of
    lib/error.js, which is not among the sources.  The spec has the error
    of a row-count check carry the statement, the parameters and the
    observed count: a new error with the given message and [data]. *)
Definition makeWithData (msg : string) (fields : list (string * Datum)) : Error :=
  mkError msg fields.

(** ['Incorrect rowCount: ' + result.rowCount] *)
Definition incorrect_rowCount (result : QResult) : string :=
  "Incorrect rowCount: " +:+ string_of_nat (rowCount result).

(** The two lines that build the statement of a stored-procedure call:
    [_.map(_.range(1, params.length + 1), v => '$' + v).join()] and
    ['SELECT * FROM ' + functionName + '(' + placeholders + ')'].  The
    parameters are an array: the source reads [params.length]. *)
Definition call_sql (functionName : string) (params : list value) : string :=
  "SELECT * FROM " +:+ functionName +:+ "(" +:+
  join "," (dollar <$> range 1 (length params + 1)) +:+ ")".

(** [pool.end(cb)]: the driver drains the pool and answers [cb(err)]. *)
Class PoolEnd (D : Type) := pool_end : D -> option Error * D.

Section Rest.
Context {D : Type} {drv : Driver D} {drv_end : PoolEnd D}.

Definition close (callback : Callback D) : Cmd D :=
  fun w =>
    if negb (pool w) then callback None w
    else
      let '(err, d) := pool_end (driver w) in
      match err with
      | Some err => callback (Some err) (with_driver d w)
      | None => callback None (mkWorld d false (trace w))
      end.

Definition queryWithClientOneRow (client : Client) (sql params : value)
    (callback : ResultsCallback D) : Cmd D :=
  queryWithClient client sql params (fun r =>
    match r with
    | inl err => callback (inl err)
    | inr result =>
        if negb (rowCount result =? 1) then
          callback (inl (makeWithData (incorrect_rowCount result)
            [("sql", DVal sql); ("sqlParams", DVal params);
             ("result", DRes (Some result))]))
        else callback (inr result)
    end).

Definition queryWithClientZeroOrOneRow (client : Client) (sql params : value)
    (callback : ResultsCallback D) : Cmd D :=
  queryWithClient client sql params (fun r =>
    match r with
    | inl err => callback (inl err)
    | inr result =>
        if 1 <? rowCount result then
          callback (inl (makeWithData (incorrect_rowCount result)
            [("sql", DVal sql); ("sqlParams", DVal params);
             ("result", DRes (Some result))]))
        else callback (inr result)
    end).

Definition queryOneRow (sql params : value) (callback : ResultsCallback D)
  : Cmd D :=
  query sql params (fun r =>
    match r with
    | inl err => callback (inl err)
    | inr result =>
        if negb (rowCount result =? 1) then
          callback (inl (makeWithData (incorrect_rowCount result)
            [("sql", DVal sql); ("sqlParams", DVal params)]))
        else callback (inr result)
    end).

Definition queryZeroOrOneRow (sql params : value) (callback : ResultsCallback D)
  : Cmd D :=
  query sql params (fun r =>
    match r with
    | inl err => callback (inl err)
    | inr result =>
        if 1 <? rowCount result then
          callback (inl (makeWithData (incorrect_rowCount result)
            [("sql", DVal sql); ("sqlParams", DVal params)]))
        else callback (inr result)
    end).

Definition call (functionName : string) (params : list value)
    (callback : ResultsCallback D) : Cmd D :=
  let sql := call_sql functionName params in
  query (VStr sql) (VArr params) (fun r =>
    match r with
    | inl err => callback (inl err)
    | inr result => callback (inr result)
    end).

Definition callOneRow (functionName : string) (params : list value)
    (callback : ResultsCallback D) : Cmd D :=
  call functionName params (fun r =>
    match r with
    | inl err => callback (inl err)
    | inr result =>
        if negb (rowCount result =? 1) then
          callback (inl (makeWithData (incorrect_rowCount result)
            [("functionName", DVal (VStr functionName));
             ("sqlParams", DVal (VArr params))]))
        else callback (inr result)
    end).

Definition callZeroOrOneRow (functionName : string) (params : list value)
    (callback : ResultsCallback D) : Cmd D :=
  call functionName params (fun r =>
    match r with
    | inl err => callback (inl err)
    | inr result =>
        if 1 <? rowCount result then
          callback (inl (makeWithData (incorrect_rowCount result)
            [("functionName", DVal (VStr functionName));
             ("sqlParams", DVal (VArr params))]))
        else callback (inr result)
    end).

Definition callWithClient (client : Client) (functionName : string)
    (params : list value) (callback : ResultsCallback D) : Cmd D :=
  let sql := call_sql functionName params in
  queryWithClient client (VStr sql) (VArr params) (fun r =>
    match r with
    | inl err => callback (inl err)
    | inr result => callback (inr result)
    end).

Definition callWithClientOneRow (client : Client) (functionName : string)
    (params : list value) (callback : ResultsCallback D) : Cmd D :=
  let sql := call_sql functionName params in
  queryWithClient client (VStr sql) (VArr params) (fun r =>
    match r with
    | inl err => callback (inl err)
    | inr result =>
        if negb (rowCount result =? 1) then
          callback (inl (makeWithData (incorrect_rowCount result)
            [("functionName", DVal (VStr functionName));
             ("sqlParams", DVal (VArr params))]))
        else callback (inr result)
    end).

Definition callWithClientZeroOrOneRow (client : Client) (functionName : string)
    (params : list value) (callback : ResultsCallback D) : Cmd D :=
  let sql := call_sql functionName params in
  queryWithClient client (VStr sql) (VArr params) (fun r =>
    match r with
    | inl err => callback (inl err)
    | inr result =>
        if 1 <? rowCount result then
          callback (inl (makeWithData (incorrect_rowCount result)
            [("functionName", DVal (VStr functionName));
             ("sqlParams", DVal (VArr params))]))
        else callback (inr result)
    end).

End Rest.

(** The script answers [pool.end] like the other calls on the pool
    object, with its next [RPool] reply. *)
#[export] Instance scripted_end : PoolEnd (list Reply) :=
  fun s => match s with RPool r :: s' => (r, s') | _ => (None, s) end.

(** ** Clients in flight

    [held_after held t]: the clients that are checked out after the
    events [t], when [held] were checked out before: a connection that
    hands out a client adds it, a release takes it away. *)
Fixpoint remove_one (c : Client) (held : list Client) : list Client :=
  match held with
  | [] => []
  | c' :: held' => if decide (c' = c) then held' else c' :: remove_one c held'
  end.

Definition held_step (held : list Client) (e : event) : list Client :=
  match e with
  | EConnect (ConnOk c) => c :: held
  | EConnect (ConnErr _ (Some c)) => c :: held
  | ERelease c _ => remove_one c held
  | _ => held
  end.

Definition held_after (held : list Client) (t : list event) : list Client :=
  foldl held_step held t.

Definition is_query (e : event) : bool :=
  match e with EQuery _ _ _ => true | _ => false end.

(** * Lemmas *)

(** ** Basic lemmas on strings and on the regular expression *)

Lemma substring_0_all (s : string) : String.substring 0 (String.length s) s = s.
Proof. induction s as [|c s IH]; simpl; [done|]. by rewrite IH. Qed.

Lemma append_cons (x : ascii) (a b : string) :
  String x a +:+ b = String x (a +:+ b).
Proof. reflexivity. Qed.

Lemma append_assoc (a b c : string) : (a +:+ b) +:+ c = a +:+ (b +:+ c).
Proof.
  induction a as [|x a IH]; [done|]. by rewrite !append_cons, IH.
Qed.

Lemma append_empty_r (a : string) : a +:+ "" = a.
Proof.
  induction a as [|x a IH]; [done|]. by rewrite append_cons, IH.
Qed.

Lemma substring_0_S (c : ascii) (s : string) (i : nat) :
  substring (String c s) 0 (S i) = String c (substring s 0 i).
Proof. unfold substring. by rewrite !Nat.sub_0_r. Qed.

Lemma dollar_not_name_char (c : ascii) :
  is_name_char c = true -> Ascii.eqb c "$" = false.
Proof.
  intros H. destruct (Ascii.eqb_spec c "$") as [->|]; [|done].
  vm_compute in H. discriminate.
Qed.

Lemma placeholders_skip_name (s : string) :
  placeholders (substring_from s (String.length (name_prefix s))) = placeholders s.
Proof.
  unfold substring_from. induction s as [|c s IH]; simpl; [done|].
  destruct (is_name_char c) eqn:Hc; simpl.
  - rewrite IH. by rewrite (dollar_not_name_char c Hc).
  - by rewrite substring_0_all.
Qed.

Lemma render_skip (f : string -> string) (k : nat) (s : string) :
  render f k s = render f 0 (substring_from s k).
Proof.
  unfold substring_from. revert k.
  induction s as [|c s IH]; intros [|k]; try reflexivity.
  - rewrite Nat.sub_0_r, substring_0_all. reflexivity.
  - simpl. apply IH.
Qed.

Lemma re_exec_None (f : string -> string) (s : string) :
  re_exec s = None -> placeholders s = [] /\ render f 0 s = s.
Proof.
  induction s as [|c s IH]; simpl; [done|].
  destruct (Ascii.eqb c "$"), (name_prefix s) as [|d n]; try discriminate;
    destruct (re_exec s); try discriminate; intros _;
    destruct IH as [-> ->]; done.
Qed.

Lemma re_exec_Some (f : string -> string) (s : string) (r : RegExpMatch) :
  re_exec s = Some r ->
  let rest := substring_from s (index r + String.length (group0 r)) in
  group0 r = "$" +:+ group1 r /\
  placeholders s = group1 r :: placeholders rest /\
  render f 0 s = substring s 0 (index r) +:+ f (group1 r) +:+ render f 0 rest.
Proof.
  revert r. induction s as [|c s IH]; intros r; [discriminate|].
  cbn [re_exec placeholders render].
  destruct (Ascii.eqb_spec c "$") as [->|Hc].
  - destruct (name_prefix s) as [|d n] eqn:Hp.
    + destruct (re_exec s) as [r'|]; [|discriminate].
      injection 1 as <-. destruct (IH r' eq_refl) as (H0 & H1 & H2).
      cbn [index group0 group1]. split_and!; [done|done|].
      rewrite H2, substring_0_S. reflexivity.
    + injection 1 as <-. cbn [index group0 group1].
      assert (substring_from (String "$" s) (0 + String.length (String "$" (String d n)))
              = substring_from s (String.length (name_prefix s))) as ->
        by (rewrite Hp; reflexivity).
      split_and!; [done| |].
      * by rewrite placeholders_skip_name.
      * rewrite render_skip, <- Hp. reflexivity.
  - assert (forall o : string,
      match o with String d n => @None RegExpMatch | _ => None end = None) as Hnone
      by (by intros []).
    destruct (re_exec s) as [r'|];
      [|destruct (name_prefix s); discriminate].
    intros Hr.
    assert (r = mkMatch (S (index r')) (group0 r') (group1 r')) as ->
      by (destruct (name_prefix s); congruence).
    destruct (IH r' eq_refl) as (H0 & H1 & H2).
    cbn [index group0 group1].
    assert (placeholders s = group1 r' ::
              placeholders (substring_from (String c s)
                 (S (index r') + String.length (group0 r')))) as H1' by exact H1.
    assert (String c (render f 0 s) =
            substring (String c s) 0 (S (index r')) +:+ f (group1 r') +:+
            render f 0 (substring_from (String c s)
                 (S (index r') + String.length (group0 r')))) as H2'
      by (rewrite H2, substring_0_S; reflexivity).
    destruct (name_prefix s); split_and!; done.
Qed.

(** ** Bindings, once made, stay *)

Lemma has_true {A} (o : gmap string A) (k : string) :
  has o k = true <-> is_Some (o !! k).
Proof. unfold has. apply bool_decide_eq_true. Qed.

Lemma has_false {A} (o : gmap string A) (k : string) :
  has o k = false <-> o !! k = None.
Proof.
  unfold has. rewrite bool_decide_eq_false, eq_None_not_Some. done.
Qed.

Lemma bind_own_inr params v n m a n' m' a' :
  bind_own params v n m a = inr (n', m', a') ->
  (is_Some (m !! v) /\ n' = n /\ m' = m /\ a' = a) \/
  (m !! v = None /\ is_Some (params !! v) /\
   n' = n + length (slot_values params v) /\
   m' = map_set m v (reference params n v) /\
   a' = a ++ slot_values params v).
Proof.
  unfold bind_own, slot_values, reference, range.
  destruct (has m v) eqn:Hm; simpl.
  { intros [= <- <- <-]. left. by apply has_true in Hm. }
  apply has_false in Hm.
  destruct (has params v) eqn:Hp; simpl; [|by intros [=]].
  apply has_true in Hp. intros H. right. split_and!; [done|done|..];
    destruct (params_get params v) as [| | | | |elems| |];
    simplify_eq; try done.
  by replace (n + length elems + 1 - (n + 1)) with (length elems) by lia.
Qed.

Lemma bind_own_settled params v n m a n' m' a' :
  bind_own params v n m a = inr (n', m', a') -> settled m' v.
Proof.
  intros [(? & _ & -> & _)|(_ & _ & _ & -> & _)]%bind_own_inr;
    [by left|].
  unfold settled, map_set. destruct (decide (v = proto_key)); [by right|].
  left. rewrite lookup_insert_eq. eauto.
Qed.

Lemma bind_own_keeps params w n m a n' m' a' k :
  bind_own params w n m a = inr (n', m', a') ->
  settled m k -> m' !! k = m !! k.
Proof.
  intros [(_ & _ & -> & _)|(Hw & _ & _ & -> & _)]%bind_own_inr Hk; [done|].
  unfold map_set. destruct (decide (w = proto_key)) as [->|Hne]; [done|].
  destruct (decide (w = k)) as [->|]; [|by rewrite lookup_insert_ne].
  destruct Hk as [[x Hx]|]; congruence.
Qed.

Lemma bind_all_keeps params names n m a n' m' a' k :
  bind_all params names n m a = inr (n', m', a') ->
  settled m k -> m' !! k = m !! k.
Proof.
  revert n m a. induction names as [|w names IH]; intros n m a; simpl.
  { by intros [= <- <- <-]. }
  destruct (bind_own params w n m a) as [e|[[n1 m1] a1]] eqn:Hw; [done|].
  intros Hall Hk. pose proof (bind_own_keeps _ _ _ _ _ _ _ _ k Hw Hk) as H1.
  rewrite <- H1. apply (IH _ _ _ Hall).
  unfold settled in *. rewrite H1. done.
Qed.

Lemma map_get_lookup m m' k : m' !! k = m !! k -> map_get m' k = map_get m k.
Proof. unfold map_get. by intros ->. Qed.

(** ** Objects without an own [__wrapped__]

    For such objects [_(o).has(k)] is the test for an own property, and
    the block of the loop is [bind_own]. *)

Lemma lodash_has_own (o : gmap string value) (k : string) :
  o !! wrapped_key = None -> lodash_has (VObj o) k = Returns (has o k).
Proof. unfold lodash_has, lodash, wrapped_key. by intros ->. Qed.

Lemma has_map_value (m : gmap string string) (k : string) :
  has (VStr <$> m) k = has m k.
Proof. unfold has. rewrite lookup_fmap. by destruct (m !! k). Qed.

Lemma lodash_has_map (m : gmap string string) (k : string) :
  m !! wrapped_key = None -> lodash_has (map_value m) k = Returns (has m k).
Proof.
  intros Hm. unfold map_value. rewrite lodash_has_own, has_map_value; [done|].
  by rewrite lookup_fmap, Hm.
Qed.

Lemma bind_name_own params v n m a :
  params !! wrapped_key = None -> m !! wrapped_key = None ->
  bind_name params v n m a = Returns (bind_own params v n m a).
Proof.
  intros Hp Hm. unfold bind_name, bind_own.
  rewrite lodash_has_map, lodash_has_own by done. simpl.
  destruct (has m v); simpl; [done|].
  destruct (has params v) eqn:Hv; simpl; [|done].
  apply has_true in Hv as [x Hx]. unfold params_read, params_get.
  rewrite Hx. simpl. by destruct x.
Qed.

Lemma bind_own_unwrapped params v n m a n' m' a' :
  bind_own params v n m a = inr (n', m', a') ->
  params !! wrapped_key = None -> m !! wrapped_key = None ->
  m' !! wrapped_key = None.
Proof.
  intros [(_ & _ & -> & _)|(_ & [x Hv] & _ & -> & _)]%bind_own_inr Hp Hm; [done|].
  unfold map_set. destruct (decide (v = proto_key)); [done|].
  rewrite lookup_insert_ne; [done|]. intros ->. congruence.
Qed.

Lemma map_read_settled m k : settled m k -> map_read m k = Returns (map_get m k).
Proof.
  unfold map_read, map_get. intros [[s ->]| ->]; [done|].
  by destruct (m !! proto_key).
Qed.

(** ** The loop is the fold of the binding block over the placeholders *)

Lemma loop_fold params p r n m a :
  params !! wrapped_key = None -> m !! wrapped_key = None ->
  loop params p r n m a =
  match bind_all params (placeholders r) n m a with
  | inl err => SubstErr err
  | inr (_, m', a') => SubstOk (p +:+ render (map_get m') 0 r) a'
  end.
Proof.
  apply (loop_elim (fun params p r n m a res =>
    params !! wrapped_key = None -> m !! wrapped_key = None ->
    res = match bind_all params (placeholders r) n m a with
          | inl err => SubstErr err
          | inr (_, m', a') => SubstOk (p +:+ render (map_get m') 0 r) a'
          end)); clear.
  - (* no placeholder left *)
    intros params p r Hre n m a _ _ _.
    destruct (re_exec_None (map_get m) _ Hre) as [Hp Hr].
    rewrite Hp. cbn [bind_all]. by rewrite Hr.
  - (* the next placeholder is not a parameter *)
    intros params p r res Hre n m a err Hb _ Hp Hm.
    rewrite bind_name_own in Hb by done. injection Hb as Hb.
    destruct (re_exec_Some id _ _ Hre) as (_ & -> & _). cbn [bind_all].
    by rewrite Hb.
  - (* no call into lodash throws *)
    intros params p r res Hre n m a Hb _ Hp Hm.
    by rewrite bind_name_own in Hb.
  - intros params p r res Hre n m a Hb _ Hp Hm.
    by rewrite bind_name_own in Hb.
  - (* the next placeholder is bound, the loop goes on *)
    intros params p r res Hre n m a n1 m1 s a1 IH Hs Hb _ Hp Hm.
    rewrite bind_name_own in Hb by done. injection Hb as Hb.
    rewrite map_read_settled in Hs by by eapply bind_own_settled.
    injection Hs as <-.
    pose proof (fun f => re_exec_Some f _ _ Hre) as Hsome. cbn zeta in Hsome.
    destruct (Hsome id) as (_ & -> & _). cbn [bind_all].
    rewrite Hb, IH by eauto using bind_own_unwrapped.
    destruct (bind_all params _ n1 m1 a1) as [e|[[n2 m2] a2]] eqn:Hall; [done|].
    destruct (Hsome (map_get m2)) as (_ & _ & ->).
    rewrite (map_get_lookup m1 m2 (group1 res)).
    + by rewrite !append_assoc.
    + eapply bind_all_keeps; [done|]. by eapply bind_own_settled.
  - (* what is read back from [map] is a binding *)
    intros params p r res Hre n m a n1 m1 a1 Hs Hb _ Hp Hm.
    rewrite bind_name_own in Hb by done. injection Hb as Hb.
    rewrite map_read_settled in Hs by by eapply bind_own_settled. done.
  - intros params p r res Hre n m a n1 m1 a1 Hs Hb _ Hp Hm.
    rewrite bind_name_own in Hb by done. injection Hb as Hb.
    rewrite map_read_settled in Hs by by eapply bind_own_settled. done.
Qed.

(** * Properties of [paramsToArray] *)

(** [paramsToArray] on a string and an object, as a fold. *)
Lemma paramsToArray_fold (sql : string) (props : gmap string value) :
  props !! wrapped_key = None ->
  paramsToArray (VStr sql) (VObj props) =
  match bind_all props (placeholders sql) 0 ∅ [] with
  | inl err => SubstErr err
  | inr (_, m, a) => SubstOk (render (map_get m) 0 sql) a
  end.
Proof. intros Hp. unfold paramsToArray. by rewrite loop_fold. Qed.

Lemma bind_own_present params v n m a :
  is_Some (params !! v) ->
  exists n' m' a', bind_own params v n m a = inr (n', m', a').
Proof.
  intros Hv%has_true. unfold bind_own. rewrite Hv.
  destruct (has m v); simpl; [|destruct (params_get params v)]; eauto.
Qed.

Lemma bind_own_absent params v n m a :
  params !! v = None -> m !! v = None ->
  bind_own params v n m a = inl (new_Error ("Missing parameter: " +:+ v)).
Proof.
  intros Hp%has_false Hm%has_false. unfold bind_own. by rewrite Hm, Hp.
Qed.

Lemma bind_own_bound_in params v n m a n' m' a' :
  bind_own params v n m a = inr (n', m', a') ->
  bound_in params m -> bound_in params m'.
Proof.
  intros [(_ & _ & -> & _)|(_ & Hv & _ & -> & _)]%bind_own_inr Hm; [done|].
  intros k. unfold map_set. destruct (decide (v = proto_key)); [apply Hm|].
  destruct (decide (v = k)) as [<-|]; [done|].
  rewrite lookup_insert_ne by done. apply Hm.
Qed.

Lemma bind_all_missing params names n m a x :
  bound_in params m -> x ∈ names -> params !! x = None ->
  exists before y after,
    names = before ++ y :: after /\
    (forall z, z ∈ before -> is_Some (params !! z)) /\
    params !! y = None /\
    bind_all params names n m a = inl (new_Error ("Missing parameter: " +:+ y)).
Proof.
  revert n m a. induction names as [|w names IH]; intros n m a Hm Hx Hnone.
  { by apply elem_of_nil in Hx. }
  destruct (params !! w) as [val|] eqn:Hw.
  - destruct (bind_own_present params w n m a) as (n1 & m1 & a1 & Hb); [eauto|].
    apply elem_of_cons in Hx as [->|Hx]; [congruence|].
    destruct (IH n1 m1 a1) as (before & y & after & -> & Hbefore & Hy & Hall);
      [by eapply bind_own_bound_in|done|done|].
    exists (w :: before), y, after. split_and!; [done| |done|].
    + intros z [->|Hz]%elem_of_cons; eauto.
    + simpl. by rewrite Hb.
  - exists [], w, names. split_and!; [done| |done|].
    + intros z Hz. by apply elem_of_nil in Hz.
    + simpl. rewrite bind_own_absent; [done|done|].
      destruct (m !! w) eqn:Hmw; [|done].
      destruct (Hm w) as [? ?]; [eauto|congruence].
Qed.

(** For a parameter object without an own [__wrapped__], a template that
    references a name absent from the object makes the substitution fail:
    the callback receives only an error, whose message is
    ["Missing parameter: "] followed by the first placeholder of the
    template that the object lacks; no rewritten SQL and no positional
    values are passed. *)
Theorem missing_parameter_unwrapped (sql : string) (props : gmap string value) (x : string) :
  props !! wrapped_key = None ->
  x ∈ placeholders sql -> props !! x = None ->
  exists before y after,
    placeholders sql = before ++ y :: after /\
    (forall z, z ∈ before -> is_Some (props !! z)) /\
    props !! y = None /\
    paramsToArray (VStr sql) (VObj props) =
      SubstErr (new_Error ("Missing parameter: " +:+ y)).
Proof.
  intros Hp Hx Hnone.
  destruct (bind_all_missing props (placeholders sql) 0 ∅ [] x)
    as (before & y & after & Hsplit & Hbefore & Hy & Hall); [|done|done|].
  { intros k [? Hk]. by rewrite lookup_empty in Hk. }
  exists before, y, after. split_and!; [done..|].
  by rewrite paramsToArray_fold, Hall.
Qed.

Lemma missing_parameter_unwrapped_witness :
  exists before y after,
    placeholders "SELECT $a, $b FROM t WHERE c = $c" = before ++ y :: after /\
    (forall z, z ∈ before -> is_Some (({[ "a" := VNum 1 ]} : gmap string value) !! z)) /\
    ({[ "a" := VNum 1 ]} : gmap string value) !! y = None /\
    paramsToArray (VStr "SELECT $a, $b FROM t WHERE c = $c") (VObj {[ "a" := VNum 1 ]}) =
      SubstErr (new_Error ("Missing parameter: " +:+ y)).
Proof.
  apply (missing_parameter_unwrapped _ _ "c").
  - reflexivity.
  - vm_compute. do 2 right. left.
  - vm_compute. reflexivity.
Defined.

(** C9. When the parameters are already an array, the callback receives the
    template and the array as they are, whatever the template contains. *)
Theorem array_params_identity (sql : string) (elems : list value) :
  paramsToArray (VStr sql) (VArr elems) = SubstOk sql elems.
Proof. reflexivity. Qed.

(** C10. A template that is not a string is refused with
    ['SQL must be a string'], whatever the parameters; with a string
    template, parameters that are neither an array nor object-like are
    refused with ['params must be array or object'].  In both cases the
    callback receives the error alone. *)
Theorem ill_typed_arguments_fail (sql params : value) :
  (isString sql = false ->
   paramsToArray sql params = SubstErr (new_Error "SQL must be a string")) /\
  (isString sql = true -> isArray params = false -> isObjectLike params = false ->
   paramsToArray sql params = SubstErr (new_Error "params must be array or object")).
Proof.
  split.
  - by destruct sql.
  - by destruct sql, params.
Qed.

Lemma ill_typed_arguments_fail_witness :
  paramsToArray (VNum 7) (VObj ∅) = SubstErr (new_Error "SQL must be a string") /\
  paramsToArray (VStr "SELECT 1") (VStr "x") =
    SubstErr (new_Error "params must be array or object").
Proof.
  split.
  - apply (proj1 (ill_typed_arguments_fail (VNum 7) (VObj ∅))). reflexivity.
  - apply (proj2 (ill_typed_arguments_fail (VStr "SELECT 1") (VStr "x")));
      reflexivity.
Defined.

(** ** The result, stated from the template

    For a parameter object without an own [__wrapped__] and a template
    whose placeholders are all parameters and none of which is
    [__proto__], the distinct placeholders take consecutive slots in the
    order of their first occurrence. *)

Lemma elem_of_first_occurrences seen names x :
  x ∈ first_occurrences seen names <-> x ∈ names /\ x ∉ seen.
Proof.
  revert seen. induction names as [|y names IH]; intros seen; simpl.
  { rewrite elem_of_nil. tauto. }
  destruct (decide (y ∈ seen)).
  - rewrite IH, elem_of_cons. split; [tauto|]. intros [[->|?] ?]; tauto.
  - rewrite !elem_of_cons, IH, elem_of_union, elem_of_singleton.
    destruct (decide (x = y)) as [->|]; tauto.
Qed.

Lemma bind_all_spec params names n m a :
  (forall x, x ∈ names -> is_Some (params !! x) /\ x <> proto_key) ->
  let ds := first_occurrences (dom m) names in
  exists m',
    bind_all params names n m a =
      inr (n + length (all_values params ds), m', a ++ all_values params ds) /\
    forall k, m' !! k =
      match m !! k with
      | Some s => Some s
      | None => if decide (k ∈ ds) then Some (binding params ds n k) else None
      end.
Proof.
  unfold all_values.
  revert n m a. induction names as [|w names IH]; intros n m a Hok; simpl.
  { exists m. rewrite Nat.add_0_r, app_nil_r. split; [done|].
    intros k. by destruct (m !! k). }
  destruct (Hok w) as [Hw Hproto]; [by left|].
  assert (forall x, x ∈ names -> is_Some (params !! x) /\ x <> proto_key) as Hok'
    by (intros x Hx; apply Hok; by right).
  destruct (bind_own_present params w n m a Hw) as (n1 & m1 & a1 & Hb).
  rewrite Hb.
  destruct (bind_own_inr _ _ _ _ _ _ _ _ Hb)
    as [(Hm & -> & -> & ->)|(Hm & _ & -> & -> & ->)].
  - rewrite decide_True by by apply elem_of_dom. apply IH, Hok'.
  - rewrite decide_False by by apply not_elem_of_dom.
    unfold map_set. rewrite decide_False by done.
    destruct (IH (n + length (slot_values params w))
                 (<[w:=reference params n w]> m)
                 (a ++ slot_values params w) Hok') as (m' & Hall & Hm').
    rewrite dom_insert_L in Hall, Hm'.
    exists m'. split.
    + rewrite Hall. simpl. rewrite length_app, <- !app_assoc.
      by rewrite Nat.add_assoc.
    + intros k. rewrite Hm'. simpl.
      destruct (decide (k = w)) as [->|Hne].
      * rewrite lookup_insert_eq, Hm. rewrite decide_True by by left. done.
      * rewrite lookup_insert_ne by done. destruct (m !! k); [done|].
        destruct (decide (k ∈ first_occurrences ({[w]} ∪ dom m) names)).
        -- by rewrite decide_True by by right.
        -- rewrite decide_False; [done|].
           intros [?|?]%elem_of_cons; done.
Qed.

Lemma placeholders_tail (c : ascii) (s : string) (x : string) :
  x ∈ placeholders s -> x ∈ placeholders (String c s).
Proof.
  simpl. destruct (Ascii.eqb c "$"), (name_prefix s); try done. by right.
Qed.

Lemma render_ext (f g : string -> string) (s : string) (k : nat) :
  (forall x, x ∈ placeholders s -> f x = g x) -> render f k s = render g k s.
Proof.
  revert k. induction s as [|c s IH]; intros k Hfg; [done|].
  assert (forall k, render f k s = render g k s) as IH'.
  { intros k'. apply IH. intros x Hx. by apply Hfg, placeholders_tail. }
  destruct k as [|k]; [|apply IH'].
  simpl in *. destruct (Ascii.eqb c "$"), (name_prefix s) as [|d n];
    rewrite ?IH'; try done.
  f_equal. apply Hfg. by left.
Qed.

(** The substitution, for a parameter object without an own [__wrapped__]
    and a template free of [__proto__] whose placeholders are all
    parameters: the SQL is the template with every [$x] replaced by the one
    reference of [x], and the positional values are the values of the
    distinct placeholders in the order of their first occurrence. *)
Theorem paramsToArray_spec (sql : string) (props : gmap string value) :
  props !! wrapped_key = None ->
  (forall x, x ∈ placeholders sql -> is_Some (props !! x) /\ x <> proto_key) ->
  let names := first_occurrences ∅ (placeholders sql) in
  paramsToArray (VStr sql) (VObj props) =
    SubstOk (render (binding props names 0) 0 sql) (all_values props names).
Proof.
  intros Hp Hok names. rewrite paramsToArray_fold by done.
  destruct (bind_all_spec props (placeholders sql) 0 ∅ [] Hok) as (m & -> & Hm).
  rewrite dom_empty_L in Hm. fold names in Hm |- *. simpl. f_equal.
  apply render_ext. intros x Hx. unfold map_get. rewrite Hm, lookup_empty.
  rewrite decide_True; [done|].
  apply elem_of_first_occurrences. split; [done|]. apply not_elem_of_empty.
Qed.

(** * Array parameters and repeated placeholders *)

Lemma first_occurrences_NoDup seen names : NoDup (first_occurrences seen names).
Proof.
  revert seen. induction names as [|x names IH]; intros seen; simpl.
  { constructor. }
  destruct (decide (x ∈ seen)); [apply IH|].
  constructor; [|apply IH].
  rewrite elem_of_first_occurrences, elem_of_union, elem_of_singleton. tauto.
Qed.

Lemma all_values_app params l1 l2 :
  all_values params (l1 ++ l2) = all_values params l1 ++ all_values params l2.
Proof. unfold all_values. by rewrite fmap_app, concat_app. Qed.

Lemma binding_app params before rest offset x :
  x ∉ before ->
  binding params (before ++ rest) offset x =
  binding params rest (offset + length (all_values params before)) x.
Proof.
  revert offset. induction before as [|y before IH]; intros offset Hx; simpl.
  { by rewrite Nat.add_0_r. }
  apply not_elem_of_cons in Hx as [Hne Hx].
  rewrite decide_False by done. rewrite IH by done.
  unfold all_values. simpl. by rewrite length_app, Nat.add_assoc.
Qed.

(** The slot of a placeholder: the names bound before it have taken
    [length (all_values params before)] positions. *)
Lemma binding_at params before x after :
  NoDup (before ++ x :: after) ->
  binding params (before ++ x :: after) 0 x =
  reference params (length (all_values params before)) x.
Proof.
  intros Hnd. apply NoDup_app in Hnd as (_ & Hx & _).
  rewrite binding_app.
  - simpl. by rewrite decide_True.
  - intros Hin. apply (Hx x Hin). by left.
Qed.

(** An array parameter of length [k], in an object without an own
    [__wrapped__] and a template free of [__proto__] whose placeholders are
    all parameters: its reference is
    [ARRAY[$i+1,...,$i+k]], where [i] slots were taken by the placeholders
    that occur first before it, and its [k] values follow theirs in the
    positional sequence. *)
Theorem array_parameter_expands (sql : string) (props : gmap string value)
    (x : string) (elems : list value) (before after : list string) :
  props !! wrapped_key = None ->
  (forall y, y ∈ placeholders sql -> is_Some (props !! y) /\ y <> proto_key) ->
  first_occurrences ∅ (placeholders sql) = before ++ x :: after ->
  props !! x = Some (VArr elems) ->
  let i := length (all_values props before) in
  exists ref : string -> string,
    paramsToArray (VStr sql) (VObj props) =
      SubstOk (render ref 0 sql)
        (all_values props before ++ elems ++ all_values props after) /\
    ref x = "ARRAY[" +:+ join "," (dollar <$> seq (i + 1) (length elems)) +:+ "]" /\
    (x ∉ before) /\ (x ∉ after).
Proof.
  intros Hp Hok Hsplit Hx i.
  pose proof (first_occurrences_NoDup ∅ (placeholders sql)) as Hnd.
  rewrite Hsplit in Hnd.
  exists (binding props (before ++ x :: after) 0).
  rewrite paramsToArray_spec by done. cbn zeta. rewrite Hsplit.
  rewrite binding_at by done.
  rewrite all_values_app. unfold all_values at 2. simpl.
  unfold reference, slot_values, params_get. rewrite Hx. simpl.
  split_and!; [done|done|..].
  - apply NoDup_app in Hnd as (_ & Hb & _). intros Hin.
    apply (Hb x Hin). by left.
  - apply NoDup_app in Hnd as (_ & _ & Ha). by apply NoDup_cons in Ha as [? _].
Qed.

(** A scalar parameter, in an object without an own [__wrapped__] and a
    template free of [__proto__] whose placeholders are all parameters:
    every occurrence of [$x] is replaced by
    the one reference [$i+1], and the value stands once in the positional
    sequence, at position [i], however often [$x] occurs. *)
Theorem scalar_parameter_bound_once (sql : string) (props : gmap string value)
    (x : string) (v : value) (before after : list string) :
  props !! wrapped_key = None ->
  (forall y, y ∈ placeholders sql -> is_Some (props !! y) /\ y <> proto_key) ->
  first_occurrences ∅ (placeholders sql) = before ++ x :: after ->
  props !! x = Some v -> isArray v = false ->
  let i := length (all_values props before) in
  exists ref : string -> string,
    paramsToArray (VStr sql) (VObj props) =
      SubstOk (render ref 0 sql)
        (all_values props before ++ v :: all_values props after) /\
    ref x = dollar (i + 1) /\
    (x ∉ before) /\ (x ∉ after).
Proof.
  intros Hp Hok Hsplit Hx Hv i.
  pose proof (first_occurrences_NoDup ∅ (placeholders sql)) as Hnd.
  rewrite Hsplit in Hnd.
  exists (binding props (before ++ x :: after) 0).
  rewrite paramsToArray_spec by done. cbn zeta. rewrite Hsplit.
  rewrite binding_at by done.
  rewrite all_values_app. unfold all_values at 2. simpl.
  unfold reference, slot_values, params_get. rewrite Hx. simpl.
  split_and!.
  - by destruct v.
  - by destruct v.
  - apply NoDup_app in Hnd as (_ & Hb & _). intros Hin.
    apply (Hb x Hin). by left.
  - apply NoDup_app in Hnd as (_ & _ & Ha). by apply NoDup_cons in Ha as [? _].
Qed.

(** The scenario of the specification. *)
Example scenario_id_tags :
  paramsToArray (VStr "SELECT * FROM t WHERE a = $id AND b = ANY($tags)")
    (VObj (<["id" := VNum 5]> {[ "tags" := VArr [VNum 1; VNum 2; VNum 3] ]}))
  = SubstOk "SELECT * FROM t WHERE a = $1 AND b = ANY(ARRAY[$2,$3,$4])"
      [VNum 5; VNum 1; VNum 2; VNum 3].
Proof. vm_compute. reflexivity. Qed.

(** A placeholder that occurs three times takes one slot. *)
Example scenario_repeated :
  paramsToArray (VStr "SELECT $a, $b, $a WHERE x = $a")
    (VObj (<["a" := VStr "u"]> {[ "b" := VNum 2 ]}))
  = SubstOk "SELECT $1, $2, $1 WHERE x = $1" [VStr "u"; VNum 2].
Proof. vm_compute. reflexivity. Qed.

(** The two theorems above, at the templates of the two scenarios. *)
Example array_parameter_expands_scenario :
  exists ref : string -> string,
    paramsToArray (VStr "SELECT * FROM t WHERE a = $id AND b = ANY($tags)")
      (VObj (<["id" := VNum 5]> {[ "tags" := VArr [VNum 1; VNum 2; VNum 3] ]}))
    = SubstOk
        (render ref 0 "SELECT * FROM t WHERE a = $id AND b = ANY($tags)")
        ([VNum 5] ++ [VNum 1; VNum 2; VNum 3] ++ []) /\
    ref "tags" = "ARRAY[$2,$3,$4]" /\
    ("tags" ∉ ["id"]) /\ ("tags" ∉ @nil string).
Proof.
  destruct (array_parameter_expands
           "SELECT * FROM t WHERE a = $id AND b = ANY($tags)"
           (<["id" := VNum 5]> {[ "tags" := VArr [VNum 1; VNum 2; VNum 3] ]})
           "tags" [VNum 1; VNum 2; VNum 3] ["id"] [])
    as (ref & Hsql & Href & Hb & Ha); [reflexivity| |reflexivity..|].
  - intros y Hy. apply list_elem_of_In in Hy. vm_compute in Hy.
    destruct Hy as [<-|[<-|[]]]; (split; [vm_compute; eauto|discriminate]).
  - exists ref. split_and!; [exact Hsql|exact Href|exact Hb|exact Ha].
Qed.

Example scalar_parameter_bound_once_scenario :
  exists ref : string -> string,
    paramsToArray (VStr "SELECT $a, $b, $a WHERE x = $a")
      (VObj (<["a" := VStr "u"]> {[ "b" := VNum 2 ]}))
    = SubstOk (render ref 0 "SELECT $a, $b, $a WHERE x = $a")
        ([] ++ VStr "u" :: [VNum 2]) /\
    ref "a" = "$1" /\
    ("a" ∉ @nil string) /\ ("a" ∉ ["b"]).
Proof.
  destruct (scalar_parameter_bound_once "SELECT $a, $b, $a WHERE x = $a"
           (<["a" := VStr "u"]> {[ "b" := VNum 2 ]})
           "a" (VStr "u") [] ["b"])
    as (ref & Hsql & Href & Hb & Ha); [reflexivity| |reflexivity..|].
  - intros y Hy. apply list_elem_of_In in Hy. vm_compute in Hy.
    destruct Hy as [<-|[<-|[<-|[<-|[]]]]];
      (split; [vm_compute; eauto|discriminate]).
  - exists ref. split_and!; [exact Hsql|exact Href|exact Hb|exact Ha].
Qed.

(** What counts as a placeholder: a [$] that no name character follows is
    copied, two placeholders may touch, and a hyphen belongs to the name. *)
Example scenario_tokens :
  paramsToArray (VStr "SELECT '$$' || $a$b, $a-b, 5$ FROM t")
    (VObj (<["a" := VNum 1]> (<["b" := VNum 2]> {[ "a-b" := VNum 3 ]})))
  = SubstOk "SELECT '$$' || $1$2, $3, 5$ FROM t" [VNum 1; VNum 2; VNum 3].
Proof. vm_compute. reflexivity. Qed.

(** ** The key [__proto__]

    The parameter object may have an own property named [__proto__] (as
    [JSON.parse('{"__proto__": 5}')] has); the binding object never gets
    one.  Such a placeholder is bound afresh at every occurrence, and what
    is written in its place is the prototype of the binding object. *)

(** C1, at a template whose array placeholder is [__proto__]: the
    placeholder is not replaced by [ARRAY[$1,$2]], and its second
    occurrence takes two more slots and appends the two values again. *)
Theorem array_parameter_proto_key :
  paramsToArray (VStr "SELECT * FROM t WHERE a = ANY($__proto__) OR b = ANY($__proto__)")
    (VObj {[ "__proto__" := VArr [VNum 1; VNum 2] ]})
  = SubstOk "SELECT * FROM t WHERE a = ANY([object Object]) OR b = ANY([object Object])"
      [VNum 1; VNum 2; VNum 1; VNum 2].
Proof. vm_compute. reflexivity. Qed.

(** C2, at a template that repeats the scalar placeholder [__proto__]: the
    value is appended once per occurrence, and no occurrence is replaced by
    a positional reference. *)
Theorem repeated_parameter_proto_key :
  paramsToArray (VStr "SELECT $__proto__, $__proto__")
    (VObj {[ "__proto__" := VNum 5 ]})
  = SubstOk "SELECT [object Object], [object Object]" [VNum 5; VNum 5].
Proof. vm_compute. reflexivity. Qed.

(** ** Parameter objects with an own [__wrapped__]

    [_(params)] takes such an object for a lodash wrapper: [has] is then
    asked of [params.__wrapped__], while the value is still read from
    [params] itself. *)

(** C8, at a parameter object that has an own [__wrapped__]: the template
    references [a], the object has no property [a], and yet no error is
    reported.  [_(params).has('a')] finds [a] in [params.__wrapped__], the
    placeholder is bound to [$1], and the value passed for it is
    [params.a], that is [undefined]. *)
Theorem missing_parameter_wrapped_object :
  "a" ∈ placeholders "SELECT $a" /\
  (<["__wrapped__" := VObj {[ "a" := VNum 1 ]}]>
     {[ "__actions__" := VArr [] ]} : gmap string value) !! "a" = None /\
  paramsToArray (VStr "SELECT $a")
    (VObj (<["__wrapped__" := VObj {[ "a" := VNum 1 ]}]>
             {[ "__actions__" := VArr [] ]}))
  = SubstOk "SELECT $1" [VUndefined].
Proof. split_and!; [by left|vm_compute; reflexivity..]. Qed.

(** The same object reports as missing a name that it does have, when the
    wrapped object lacks it. *)
Example present_parameter_reported_missing :
  paramsToArray (VStr "SELECT $b")
    (VObj (<["__wrapped__" := VObj {[ "a" := VNum 1 ]}]>
             (<["__actions__" := VArr []]> {[ "b" := VNum 2 ]})))
  = SubstErr (new_Error "Missing parameter: b").
Proof. vm_compute. reflexivity. Qed.

(** Without [__actions__] the clone of the supposed wrapper throws, and
    the callback is not called at all; a template without placeholders
    never gets that far. *)
Example wrapped_without_actions_throws :
  paramsToArray (VStr "SELECT $a") (VObj {[ "__wrapped__" := VObj {[ "a" := VNum 1 ]} ]})
  = SubstThrows /\
  paramsToArray (VStr "SELECT 1") (VObj {[ "__wrapped__" := VObj {[ "a" := VNum 1 ]} ]})
  = SubstOk "SELECT 1" [].
Proof. vm_compute. split; reflexivity. Qed.

(** Once the placeholder [__wrapped__] is bound, the binding object is
    taken for a wrapper too, and the next placeholder throws. *)
Example binding_object_wrapped_throws :
  paramsToArray (VStr "SELECT $__wrapped__")
    (VObj (<["__wrapped__" := VObj {[ "__wrapped__" := VNum 1 ]}]>
             {[ "__actions__" := VArr [] ]}))
  = SubstOk "SELECT $1" [VObj {[ "__wrapped__" := VNum 1 ]}] /\
  paramsToArray (VStr "SELECT $__wrapped__, $__wrapped__")
    (VObj (<["__wrapped__" := VObj {[ "__wrapped__" := VNum 1 ]}]>
             {[ "__actions__" := VArr [] ]}))
  = SubstThrows.
Proof. vm_compute. split; reflexivity. Qed.

(** * Properties of the pool, query and transaction functions *)

Lemma lookup_assign_field fields k v k' :
  lookup_field (assign_field fields k v) k' =
  if decide (k = k') then Some v else lookup_field fields k'.
Proof.
  induction fields as [|[k0 v0] fields IH]; simpl.
  - by destruct (decide (k = k')).
  - destruct (decide (k0 = k)) as [->|Hne]; simpl.
    + by destruct (decide (k = k')).
    + rewrite IH. destruct (decide (k0 = k')) as [->|]; [|done].
      by rewrite decide_False.
Qed.

Lemma field_addData_1 err k v :
  field (addData err [(k, v)]) k = Some v.
Proof.
  unfold field, addData, assign. simpl.
  by rewrite lookup_assign_field, decide_True.
Qed.

Lemma field_addData_2 err k1 v1 k2 v2 :
  k1 <> k2 ->
  field (addData err [(k1, v1); (k2, v2)]) k1 = Some v1 /\
  field (addData err [(k1, v1); (k2, v2)]) k2 = Some v2.
Proof.
  intros Hne. unfold field, addData, assign. simpl.
  rewrite !lookup_assign_field. split.
  - rewrite decide_False by done. by rewrite decide_True.
  - by rewrite decide_True.
Qed.

Lemma message_addData err new : message (addData err new) = message err.
Proof. reflexivity. Qed.

Section ApiProperties.

Context {D : Type} {drv : Driver D}.
Implicit Types (w : World D) (c client : Client) (callback : Callback D).

(** [rollbackWithClient]: one [ROLLBACK;], then one release whose argument
    is the rollback error, then the callback. *)
Lemma rollbackWithClient_run client callback w :
  rollbackWithClient client (done_of client) callback w =
  match pg_query client "ROLLBACK;" None (driver w) with
  | (r, d) =>
      let arg := match r with inl e => Some (RError e) | inr _ => None end in
      callback (match r with inl e => Some e | inr _ => None end)
        (mkWorld (release client arg d) (pool w)
           (trace w ++ [EQuery client "ROLLBACK;" None; ERelease client arg]))
  end.
Proof.
  unfold rollbackWithClient, client_query.
  destruct (pg_query client "ROLLBACK;" None (driver w)) as [[e|r] d];
    unfold then_, done_of, emit, with_driver; simpl;
    by rewrite <- app_assoc.
Qed.

(** [queryWithClient] with the statements the transaction functions
    issue: the parameters are an empty array, so the text goes to the
    driver as it is. *)
Lemma queryWithClient_plain client (sql : string) (callback : ResultsCallback D) w :
  queryWithClient client (VStr sql) (VArr []) callback w =
  match pg_query client sql (Some []) (driver w) with
  | (r, d) =>
      callback
        (match r with
         | inl err =>
             inl (addData err
               [("sqlError", sqlError_of err); ("sql", DVal (VStr sql));
                ("sqlParams", DVal (VArr [])); ("result", DRes None)])
         | inr result => inr result
         end)
        (mkWorld d (pool w) (trace w ++ [EQuery client sql (Some [])]))
  end.
Proof.
  unfold queryWithClient, client_query. simpl.
  by destruct (pg_query client sql (Some []) (driver w)) as [[e|r] d].
Qed.

(** C5. [endTransaction] with a triggering error issues exactly one
    [ROLLBACK;] and then releases the client exactly once.  When the
    rollback succeeds the callback receives the triggering error, marked
    [rollback: 'success']; when it fails the callback receives the
    rollback error, marked [rollback: 'fail'] and carrying the triggering
    error as [prevErr]. *)
Theorem endTransaction_failure_outcome client (err : Error) callback w :
  exists surfaced arg t w',
    endTransaction client (done_of client) (Some err) callback w =
      callback (Some surfaced) w' /\
    trace w' = trace w ++ t /\
    t = [EQuery client "ROLLBACK;" None; ERelease client arg] /\
    count (is_statement "ROLLBACK;") t = 1 /\
    count is_release t = 1 /\
    match (pg_query client "ROLLBACK;" None (driver w)).1 with
    | inr _ =>
        arg = None /\
        surfaced = addData err [("rollback", DStr "success")] /\
        message surfaced = message err /\
        field surfaced "rollback" = Some (DStr "success")
    | inl rollbackErr =>
        arg = Some (RError rollbackErr) /\
        surfaced = addData rollbackErr
          [("prevErr", DErr err); ("rollback", DStr "fail")] /\
        message surfaced = message rollbackErr /\
        field surfaced "prevErr" = Some (DErr err) /\
        field surfaced "rollback" = Some (DStr "fail")
    end.
Proof.
  unfold endTransaction. rewrite rollbackWithClient_run.
  destruct (pg_query client "ROLLBACK;" None (driver w)) as [[e|r] d]; simpl.
  - eexists _, _, _, _. split; [reflexivity|]. simpl.
    split_and!; try reflexivity; by apply field_addData_2.
  - eexists _, _, _, _. split; [reflexivity|]. simpl.
    split_and!; try reflexivity. apply field_addData_1.
Qed.

(** [getClient] on an open pool. *)
Lemma getClient_run (callback : ClientCallback D) w :
  pool w = true ->
  getClient callback w =
  match connect (driver w) with
  | (ConnOk client, d) =>
      callback (inr (client, done_of client))
        (mkWorld d (pool w) (trace w ++ [EConnect (ConnOk client)]))
  | (ConnErr err (Some client), d) =>
      callback (inl err)
        (mkWorld (release client (Some (RClient client)) d) (pool w)
           (trace w ++ [EConnect (ConnErr err (Some client));
                        ERelease client (Some (RClient client))]))
  | (ConnErr err None, d) =>
      callback (inl err)
        (mkWorld d (pool w) (trace w ++ [EConnect (ConnErr err None)]))
  end.
Proof.
  intros Hpool. unfold getClient, pool_connect. rewrite Hpool. simpl.
  destruct (connect (driver w)) as [[client|err [client|]] d];
    unfold then_, done_of, emit, with_driver, ret; simpl;
    by rewrite <- ?app_assoc, ?Hpool.
Qed.

(** C3. A transaction that was begun and is then ended releases its
    client exactly once, whatever the outcome and whether or not the
    closing statement succeeds: with a success outcome exactly one
    [COMMIT] is issued and no rollback, with a failure outcome exactly
    one [ROLLBACK;] and no commit. *)
Theorem transaction_releases_once (outcome : option Error) callback w c d1 d2 res :
  pool w = true ->
  connect (driver w) = (ConnOk c, d1) ->
  pg_query c "START TRANSACTION;" (Some []) d1 = (inr res, d2) ->
  exists surfaced closing arg w',
    transaction outcome callback w = callback surfaced w' /\
    trace w' = trace w ++
      [EConnect (ConnOk c); EQuery c "START TRANSACTION;" (Some []);
       closing; ERelease c arg] /\
    closing = match outcome with
              | None => EQuery c "COMMIT" (Some [])
              | Some _ => EQuery c "ROLLBACK;" None
              end /\
    count is_release (drop (length (trace w)) (trace w')) = 1 /\
    count (is_statement "COMMIT") (drop (length (trace w)) (trace w')) =
      match outcome with Some _ => 0 | None => 1 end /\
    count (is_statement "ROLLBACK;") (drop (length (trace w)) (trace w')) =
      match outcome with Some _ => 1 | None => 0 end.
Proof.
  intros Hpool Hconn Hstart. unfold transaction, beginTransaction.
  rewrite getClient_run by done. rewrite Hconn.
  rewrite queryWithClient_plain. simpl. rewrite Hstart.
  destruct outcome as [err|]; unfold endTransaction.
  - rewrite rollbackWithClient_run. simpl.
    destruct (pg_query c "ROLLBACK;" None d2) as [[e|r] d3]; simpl;
      (eexists _, _, _, _; split; [reflexivity|]; simpl;
       rewrite <- !app_assoc; simpl;
       split_and!; [reflexivity|reflexivity|..];
       rewrite drop_app_length; reflexivity).
  - rewrite queryWithClient_plain. simpl.
    destruct (pg_query c "COMMIT" (Some []) d2) as [[e|r] d3]; simpl;
      unfold then_, done_of, emit, with_driver; simpl;
      (eexists _, _, _, _; split; [reflexivity|]; simpl;
       rewrite <- !app_assoc; simpl;
       split_and!; [reflexivity|reflexivity|..];
       rewrite drop_app_length; reflexivity).
Qed.

(** [beginTransaction] when the driver refuses [START TRANSACTION;]: one
    [ROLLBACK;], one release.  After a successful rollback the callback
    receives the error of the failed statement, with the context that
    [queryWithClient] attached to it; after a failed rollback it receives
    the rollback error as the driver gave it. *)
Lemma beginTransaction_start_fails (callback : ClientCallback D) w c d1 d2 beginErr :
  pool w = true ->
  connect (driver w) = (ConnOk c, d1) ->
  pg_query c "START TRANSACTION;" (Some []) d1 = (inl beginErr, d2) ->
  exists surfaced arg w',
    beginTransaction callback w = callback (inl surfaced) w' /\
    trace w' = trace w ++
      [EConnect (ConnOk c); EQuery c "START TRANSACTION;" (Some []);
       EQuery c "ROLLBACK;" None; ERelease c arg] /\
    match (pg_query c "ROLLBACK;" None d2).1 with
    | inr _ =>
        arg = None /\
        surfaced = addData beginErr
          [("sqlError", sqlError_of beginErr);
           ("sql", DVal (VStr "START TRANSACTION;"));
           ("sqlParams", DVal (VArr [])); ("result", DRes None)]
    | inl rollbackErr =>
        arg = Some (RError rollbackErr) /\ surfaced = rollbackErr
    end.
Proof.
  intros Hpool Hconn Hstart. unfold beginTransaction.
  rewrite getClient_run by done. rewrite Hconn.
  rewrite queryWithClient_plain. simpl. rewrite Hstart.
  rewrite rollbackWithClient_run. simpl.
  destruct (pg_query c "ROLLBACK;" None d2) as [[e|r] d3]; simpl;
    (eexists _, _, _; split; [reflexivity|]; simpl;
     by rewrite <- !app_assoc).
Qed.

(** [query] on an open pool whose checkout succeeds, path by path: a
    substitution error reaches the callback without any release; a driver
    error and a result are each preceded by exactly one release; and when
    a call into lodash throws, nothing follows the checkout. *)
Lemma query_run (sql params : value) (callback : ResultsCallback D) w c d1 :
  pool w = true ->
  connect (driver w) = (ConnOk c, d1) ->
  query sql params callback w =
  match paramsToArray sql params with
  | SubstErr err =>
      callback (inl (addData err [("sql", DVal sql); ("sqlParams", DVal params)]))
        (mkWorld d1 (pool w) (trace w ++ [EConnect (ConnOk c)]))
  | SubstOk newSql newParams =>
      match pg_query c newSql (Some newParams) d1 with
      | (inl err, d2) =>
          callback (inl (addData err
              [("sqlError", sqlError_of err); ("sql", DVal sql);
               ("sqlParams", DVal params)]))
            (mkWorld (release c (Some (RClient c)) d2) (pool w)
               (trace w ++ [EConnect (ConnOk c); EQuery c newSql (Some newParams);
                            ERelease c (Some (RClient c))]))
      | (inr result, d2) =>
          callback (inr result)
            (mkWorld (release c None d2) (pool w)
               (trace w ++ [EConnect (ConnOk c); EQuery c newSql (Some newParams);
                            ERelease c None]))
      end
  | SubstThrows => mkWorld d1 (pool w) (trace w ++ [EConnect (ConnOk c); EThrow])
  | SubstBeyond => mkWorld d1 (pool w) (trace w ++ [EConnect (ConnOk c); EBeyond])
  end.
Proof.
  intros Hpool Hconn. unfold query, pool_connect. rewrite Hpool, Hconn. simpl.
  destruct (paramsToArray sql params) as [err|newSql newParams| |];
    [|  |unfold emit, with_driver; simpl; by rewrite <- app_assoc, Hpool..].
  { unfold emit, with_driver. simpl. by rewrite Hpool. }
  unfold client_query. simpl.
  destruct (pg_query c newSql (Some newParams) d1) as [[e|r] d2];
    unfold handleError, then_, done_of, emit, with_driver; simpl;
    by rewrite <- !app_assoc, Hpool.
Qed.

Lemma retry_trace_cons ms delays r rs final :
  retry_trace (ms :: delays) (r :: rs) final =
  attempt r ++ ESetTimeout ms :: retry_trace delays rs final.
Proof.
  unfold retry_trace. simpl. rewrite <- !app_assoc. reflexivity.
Qed.

Lemma connects_attempt r : connects (attempt r) = [r].
Proof. by destruct r as [c|e [c|]]. Qed.

Lemma timeouts_attempt r : timeouts (attempt r) = [].
Proof. by destruct r as [c|e [c|]]. Qed.

Lemma connects_retry_trace delays rs final :
  length rs <= length delays ->
  connects (retry_trace delays rs final) = rs ++ [final].
Proof.
  revert delays. induction rs as [|r rs IH]; intros delays Hlen.
  { unfold retry_trace. destruct delays; apply connects_attempt. }
  destruct delays as [|ms delays]; [simpl in Hlen; lia|].
  rewrite retry_trace_cons. unfold connects in *.
  rewrite omap_app. fold (connects (attempt r)). rewrite connects_attempt.
  simpl. f_equal. apply IH. simpl in Hlen. lia.
Qed.

Lemma timeouts_retry_trace delays rs final :
  length rs <= length delays ->
  timeouts (retry_trace delays rs final) = take (length rs) delays.
Proof.
  revert delays. induction rs as [|r rs IH]; intros delays Hlen.
  { unfold retry_trace. destruct delays; apply timeouts_attempt. }
  destruct delays as [|ms delays]; [simpl in Hlen; lia|].
  rewrite retry_trace_cons. unfold timeouts in *.
  rewrite omap_app. fold (timeouts (attempt r)). rewrite timeouts_attempt.
  simpl. f_equal. apply IH. simpl in Hlen. lia.
Qed.

(** A run of [tryConnect] started with [retryCount = rc]: the attempts
    that failed and were retried, each followed by its delay, then the
    final attempt, whose answer decides what the callback gets. *)
Lemma tryConnect_trace callback rc w :
  exists rs final surfaced w',
    tryConnect callback rc w = callback surfaced w' /\
    pool w' = pool w /\
    trace w' = trace w ++ retry_trace (drop rc retryTimeouts) rs final /\
    length rs <= length retryTimeouts - rc /\
    Forall failed rs /\
    match final with
    | ConnOk _ => surfaced = None
    | ConnErr last_err _ =>
        length rs = length retryTimeouts - rc /\
        surfaced = Some (exhausted last_err)
    end.
Proof.
  remember (length retryTimeouts - rc) as k eqn:Hk.
  revert rc w Hk. induction k as [|k IH]; intros rc w Hk;
    rewrite tryConnect_equation_1; unfold pool_connect;
    destruct (connect (driver w)) as [[c|e oc] d]; simpl.
  1, 3: (exists [], (ConnOk c), None; eexists;
         unfold then_, done_of, emit, with_driver; simpl;
         rewrite <- app_assoc; split_and!;
         [reflexivity|reflexivity|reflexivity|lia|constructor|reflexivity]).
  - (* no retry left *)
    destruct (decide (5 <= rc)) as [Hle|Hgt]; [|simpl in Hk; lia].
    destruct oc as [c|];
      unfold then_, done_of, emit, with_driver, ret; simpl;
      [exists [], (ConnErr e (Some c)), (Some (exhausted e))
      |exists [], (ConnErr e None), (Some (exhausted e))];
      eexists; rewrite <- ?app_assoc;
      (split_and!;
       [reflexivity|reflexivity|reflexivity|simpl; lia|constructor
       |simpl; lia|done]).
  - (* retry after the next delay *)
    destruct (decide (5 <= rc)) as [Hle|Hgt]; [simpl in Hk; lia|].
    destruct (lookup_lt_is_Some_2 retryTimeouts rc) as [ms Hms];
      [simpl; lia|].
    rewrite Hms, (drop_S _ _ _ Hms). simpl. unfold setTimeout.
    destruct oc as [c|];
      unfold then_, done_of, emit, with_driver, ret; simpl;
      match goal with
      | |- context [tryConnect callback (S rc) ?w1] =>
          destruct (IH (S rc) w1)
            as (rs & final & surfaced & w' & -> & Hpool & Htr & Hlen & Hfail
                & Hlast);
            [lia|]
      end;
      simpl in Htr; rewrite <- !app_assoc in Htr; simpl in Htr;
      [exists (ConnErr e (Some c) :: rs), final, surfaced, w'
      |exists (ConnErr e None :: rs), final, surfaced, w'];
      rewrite retry_trace_cons;
      (split_and!;
       [reflexivity|exact Hpool|exact Htr|simpl; lia|by constructor
       |destruct final; [done|]; destruct Hlast as [Hl ->]; simpl; split; [lia|done]]).
Qed.

(** C7. [init] fails at once, without any connection attempt, when the
    pool cannot be created: the callback gets the error of the
    constructor, with its message and with the configuration attached as
    [pgConfig], and the trace and the pool variable are left as they were.
    Otherwise [init] sets the pool variable, registers the handler and
    tries to connect, and what
    it does until the callback is called is exactly this: the attempts
    [rs], at most five, that failed and are retried, each followed at once
    by the release of its client, if it had one, and then by its delay, the
    delays being 500, 1000, 2000, 5000, 10000 ms in this order; then the
    [final] attempt.  If the final attempt succeeds, its client is released
    and the callback gets no error.  If it fails, all five delays have been
    used (six attempts in all), and the callback gets the last connection
    error, its data unchanged, with the message
    ["Couldn't connect to Postgres after 5 retries: "] put before its
    own.  No error is reported otherwise. *)
Theorem init_bounded_retry (pgConfig : value)
    (idleErrorHandler : Error -> Client -> Cmd D) callback w :
  match new_Pool pgConfig (driver w) with
  | (Some err, d) =>
      init pgConfig idleErrorHandler callback w =
        callback (Some (addData err [("pgConfig", DVal pgConfig)]))
          (mkWorld d (pool w) (trace w)) /\
      message (addData err [("pgConfig", DVal pgConfig)]) = message err /\
      field (addData err [("pgConfig", DVal pgConfig)]) "pgConfig" =
        Some (DVal pgConfig)
  | (None, d) =>
      exists t surfaced w',
        init pgConfig idleErrorHandler callback w = callback surfaced w' /\
        pool w' = true /\
        trace w' = trace w ++ EPoolOnError :: t /\
        timeouts t `prefix_of` [500; 1000; 2000; 5000; 10000]%N /\
        length (connects t) = S (length (timeouts t)) /\
        length (connects t) <= 6 /\
        Forall failed (take (length (timeouts t)) (connects t)) /\
        match surfaced with
        | None => exists c, last (connects t) = Some (ConnOk c)
        | Some e =>
            timeouts t = [500; 1000; 2000; 5000; 10000]%N /\
            exists last_err oc,
              last (connects t) = Some (ConnErr last_err oc) /\
              e = set_message last_err
                    ("Couldn't connect to Postgres after 5 retries: " +:+
                     message last_err)
        end /\
        exists rs final,
          t = concat (zip_with (fun r ms => attempt r ++ [ESetTimeout ms]) rs
                        [500; 1000; 2000; 5000; 10000]%N)
              ++ attempt final /\
          length rs <= 5 /\
          Forall failed rs /\
          connects t = rs ++ [final] /\
          timeouts t = take (length rs) [500; 1000; 2000; 5000; 10000]%N /\
          match final with
          | ConnOk c =>
              surfaced = None /\
              attempt final = [EConnect (ConnOk c); ERelease c None]
          | ConnErr last_err oc =>
              length rs = 5 /\
              attempt final =
                EConnect (ConnErr last_err oc) ::
                match oc with
                | Some c => [ERelease c (Some (RClient c))]
                | None => []
                end /\
              exists e,
                surfaced = Some e /\
                message e =
                  "Couldn't connect to Postgres after 5 retries: " +:+
                  message last_err /\
                data e = data last_err
          end
  end.
Proof.
  unfold init.
  destruct (new_Pool pgConfig (driver w)) as [[err|] d].
  { split_and!; [done|done|apply field_addData_1]. }
  unfold then_.
  destruct (tryConnect_trace callback 0
              (emit EPoolOnError (mkWorld d true (trace w))))
    as (rs & final & surfaced & w' & Hrun & Hpool & Htr & Hlen & Hfail & Hlast).
  simpl in Htr, Hlen, Hpool. rewrite <- app_assoc in Htr.
  assert (length rs <= length retryTimeouts) as Hlen' by (simpl; lia).
  pose proof (connects_retry_trace retryTimeouts rs final Hlen') as Hc.
  pose proof (timeouts_retry_trace retryTimeouts rs final Hlen') as Ht.
  exists (retry_trace retryTimeouts rs final), surfaced, w'.
  rewrite Hc, Ht.
  assert (length (take (length rs) retryTimeouts) = length rs) as Htake
    by (rewrite length_take; simpl; lia).
  rewrite Htake.
  split_and!; [done|done|done|apply prefix_take|..].
  - rewrite length_app. simpl. lia.
  - rewrite length_app. simpl. lia.
  - by rewrite take_app_length.
  - rewrite last_snoc. destruct final as [c|last_err oc].
    + subst surfaced. by exists c.
    + destruct Hlast as [Hl ->]. split.
      * rewrite Hl. reflexivity.
      * by exists last_err, oc.
  - exists rs, final. split_and!; [done|lia|done|done|done|].
    destruct final as [c|last_err oc].
    + done.
    + destruct Hlast as [Hl ->]. split_and!; [done|by destruct oc|].
      by exists (exhausted last_err).
Qed.
End ApiProperties.

(** * Scenarios on the scripted driver *)

Lemma transaction_releases_once_witness :
  exists surfaced closing arg w',
    transaction None record_callback
      (scripted_world [RConnect (ConnOk 7); RQuery (inr no_rows); RQuery (inr no_rows)])
      = record_callback surfaced w' /\
    trace w' =
      [EConnect (ConnOk 7); EQuery 7 "START TRANSACTION;" (Some []);
       closing; ERelease 7 arg] /\
    closing = EQuery 7 "COMMIT" (Some []) /\
    count is_release (trace w') = 1 /\
    count (is_statement "COMMIT") (trace w') = 1 /\
    count (is_statement "ROLLBACK;") (trace w') = 0.
Proof.
  apply (transaction_releases_once None record_callback
           (scripted_world
              [RConnect (ConnOk 7); RQuery (inr no_rows); RQuery (inr no_rows)])
           7 [RQuery (inr no_rows); RQuery (inr no_rows)]
           [RQuery (inr no_rows)] no_rows);
    reflexivity.
Defined.

(** A transaction that ends with a failure outcome, and whose rollback the
    driver refuses. *)
Example transaction_rollback_refused :
  trace (transaction (Some (new_Error "insert failed")) record_callback
           (scripted_world [RConnect (ConnOk 7); RQuery (inr no_rows);
                            RQuery (inl (new_Error "connection lost"))]))
  = [EConnect (ConnOk 7);
     EQuery 7 "START TRANSACTION;" (Some []);
     EQuery 7 "ROLLBACK;" None;
     ERelease 7 (Some (RError (new_Error "connection lost")));
     ECallback (Some (mkError "connection lost"
       [("prevErr", DErr (new_Error "insert failed"));
        ("rollback", DStr "fail")]))].
Proof. vm_compute. reflexivity. Qed.

(** C4, when the rollback fails too: the callback receives the rollback
    error exactly as the driver produced it; the error of
    [START TRANSACTION;] is nowhere in what the caller gets. *)
Theorem beginTransaction_rollback_fails :
  beginTransaction record_client
    (scripted_world [RConnect (ConnOk 7);
                     RQuery (inl (new_Error "could not begin"));
                     RQuery (inl (new_Error "could not roll back"))])
  = mkWorld [] true
      [EConnect (ConnOk 7);
       EQuery 7 "START TRANSACTION;" (Some []);
       EQuery 7 "ROLLBACK;" None;
       ERelease 7 (Some (RError (new_Error "could not roll back")));
       EClient (inl (mkError "could not roll back" []))].
Proof. vm_compute. reflexivity. Qed.

(** The same failure of [START TRANSACTION;] with a rollback that works:
    the callback receives the begin error. *)
Example beginTransaction_rollback_succeeds :
  beginTransaction record_client
    (scripted_world [RConnect (ConnOk 7);
                     RQuery (inl (new_Error "could not begin"));
                     RQuery (inr no_rows)])
  = mkWorld [] true
      [EConnect (ConnOk 7);
       EQuery 7 "START TRANSACTION;" (Some []);
       EQuery 7 "ROLLBACK;" None;
       ERelease 7 None;
       EClient (inl (mkError "could not begin"
         [("sqlError", DErr (new_Error "could not begin"));
          ("sql", DVal (VStr "START TRANSACTION;"));
          ("sqlParams", DVal (VArr []));
          ("result", DRes None)]))].
Proof. vm_compute. reflexivity. Qed.

(** C6, on the path of a substitution error: the client that was checked
    out is never released. *)
Theorem query_missing_parameter_keeps_client :
  trace (query (VStr "SELECT * FROM t WHERE a = $a") (VObj ∅) record_results
           (scripted_world [RConnect (ConnOk 7)]))
  = [EConnect (ConnOk 7);
     EResults (inl (mkError "Missing parameter: a"
       [("sql", DVal (VStr "SELECT * FROM t WHERE a = $a"));
        ("sqlParams", DVal (VObj ∅))]))] /\
  count is_release
    (trace (query (VStr "SELECT * FROM t WHERE a = $a") (VObj ∅) record_results
              (scripted_world [RConnect (ConnOk 7)]))) = 0.
Proof. vm_compute. split; reflexivity. Qed.

(** The other two paths of [query] release the client once. *)
Example query_driver_error_releases :
  trace (query (VStr "SELECT 1") (VArr []) record_results
           (scripted_world [RConnect (ConnOk 7);
                            RQuery (inl (new_Error "syntax error"))]))
  = [EConnect (ConnOk 7); EQuery 7 "SELECT 1" (Some []);
     ERelease 7 (Some (RClient 7));
     EResults (inl (mkError "syntax error"
       [("sqlError", DErr (new_Error "syntax error"));
        ("sql", DVal (VStr "SELECT 1")); ("sqlParams", DVal (VArr []))]))].
Proof. vm_compute. reflexivity. Qed.

Example query_success_releases :
  trace (query (VStr "SELECT 1") (VArr []) record_results
           (scripted_world [RConnect (ConnOk 7); RQuery (inr no_rows)]))
  = [EConnect (ConnOk 7); EQuery 7 "SELECT 1" (Some []); ERelease 7 None;
     EResults (inr no_rows)].
Proof. vm_compute. reflexivity. Qed.

(** [init] against a host that never answers: six attempts, the five
    delays in order, then the error. *)
Example init_unreachable :
  trace (init (VObj ∅) (fun _ _ => ret) record_callback (mkWorld [] false []))
  = [EPoolOnError;
     EConnect (ConnErr (new_Error "connect ECONNREFUSED") None); ESetTimeout 500;
     EConnect (ConnErr (new_Error "connect ECONNREFUSED") None); ESetTimeout 1000;
     EConnect (ConnErr (new_Error "connect ECONNREFUSED") None); ESetTimeout 2000;
     EConnect (ConnErr (new_Error "connect ECONNREFUSED") None); ESetTimeout 5000;
     EConnect (ConnErr (new_Error "connect ECONNREFUSED") None); ESetTimeout 10000;
     EConnect (ConnErr (new_Error "connect ECONNREFUSED") None);
     ECallback (Some (mkError
       "Couldn't connect to Postgres after 5 retries: connect ECONNREFUSED" []))].
Proof. vm_compute. reflexivity. Qed.

(** [init] when the pool cannot be created: no attempt at all. *)
Example init_bad_config :
  trace (init (VObj ∅) (fun _ _ => ret) record_callback
           (mkWorld [RPool (Some (new_Error "invalid configuration"))] false []))
  = [ECallback (Some (mkError "invalid configuration"
       [("pgConfig", DVal (VObj ∅))]))].
Proof. vm_compute. reflexivity. Qed.

(** * More properties: logging strings and substitution *)

Lemma length_append (a b : string) :
  String.length (a +:+ b) = String.length a + String.length b.
Proof.
  induction a as [|x a IH]; [done|]. rewrite append_cons. simpl. by rewrite IH.
Qed.

Lemma substring_length (s : string) (n m : nat) :
  String.length (String.substring n m s) = Nat.min m (String.length s - n).
Proof.
  revert n m. induction s as [|c s IH]; intros [|n] [|m]; simpl; auto;
    rewrite IH; simpl; lia.
Qed.

Lemma chars_append (a b : string) :
  list_ascii_of_string (a +:+ b) = list_ascii_of_string a ++ list_ascii_of_string b.
Proof.
  induction a as [|x a IH]; [done|]. rewrite append_cons. simpl. by rewrite IH.
Qed.

Lemma chars_substring (s : string) (n m : nat) (c : ascii) :
  c ∈ list_ascii_of_string (String.substring n m s) -> c ∈ list_ascii_of_string s.
Proof.
  revert n m. induction s as [|x s IH]; intros [|n] [|m]; simpl; intros H;
    try (by apply elem_of_nil in H).
  - apply elem_of_cons in H as [->|H]; [by left|]. right. by eapply IH.
  - right. by eapply IH.
  - right. by eapply IH.
Qed.

Lemma replace_newlines_chars (s : string) :
  "010"%char ∉ list_ascii_of_string (replace_newlines s).
Proof.
  induction s as [|c s IH]; simpl; [apply not_elem_of_nil|].
  destruct (Ascii.eqb_spec c "010") as [->|Hc]; simpl.
  - intros [?|[?|?]%elem_of_cons]%elem_of_cons; done.
  - intros [?|?]%elem_of_cons; done.
Qed.

Lemma replace_newlines_id (s : string) :
  "010"%char ∉ list_ascii_of_string s -> replace_newlines s = s.
Proof.
  induction s as [|c s IH]; simpl; [done|].
  intros [Hc Hs]%not_elem_of_cons.
  destruct (Ascii.eqb_spec c "010") as [->|_]; [done|]. by rewrite IH.
Qed.

(** X1. A logged string never exceeds 80 characters, quotes included,
    however long the value is; a value that is not a string is logged as
    [NOT A STRING]. *)
Theorem debugString_bounded (v : value) :
  String.length (debugString v) <= 80 /\
  (isString v = false -> debugString v = "NOT A STRING").
Proof.
  split; [|by destruct v].
  destruct v as [| | | |s| | |]; try (vm_compute; lia).
  unfold debugString, quote. rewrite !length_append.
  destruct (Nat.ltb_spec 78 (String.length (replace_newlines s))) as [Hlt|Hle].
  - rewrite length_append. unfold substring. rewrite substring_length.
    cbn [String.length]. lia.
  - cbn [String.length]. lia.
Qed.

Lemma debugString_bounded_witness :
  String.length (debugString (VNum 3)) <= 80 /\ debugString (VNum 3) = "NOT A STRING".
Proof.
  split.
  - apply (proj1 (debugString_bounded (VNum 3))).
  - apply (proj2 (debugString_bounded (VNum 3))). reflexivity.
Defined.

(** X2. A logged string is one line: it holds no line feed, whatever the
    value holds. *)
Theorem debugString_one_line (v : value) :
  "010"%char ∉ list_ascii_of_string (debugString v).
Proof.
  destruct v as [| | | |s| | |];
    try (vm_compute; intros H; repeat (apply elem_of_cons in H as [H|H]; [discriminate H|]);
         by apply elem_of_nil in H).
  unfold debugString. rewrite !chars_append.
  intros [H|[H|H]%elem_of_app]%elem_of_app.
  - vm_compute in H. apply elem_of_cons in H as [H|H]; [discriminate|].
    by apply elem_of_nil in H.
  - destruct (78 <? String.length (replace_newlines s)).
    + rewrite chars_append in H. apply elem_of_app in H as [H|H].
      * apply chars_substring in H. by apply replace_newlines_chars in H.
      * vm_compute in H.
        repeat (apply elem_of_cons in H as [H|H]; [discriminate H|]).
        by apply elem_of_nil in H.
    + by apply replace_newlines_chars in H.
  - vm_compute in H. apply elem_of_cons in H as [H|H]; [discriminate|].
    by apply elem_of_nil in H.
Qed.

(** X3. A string of at most 78 characters without a line feed is logged
    whole, between two double quotes. *)
Theorem debugString_short (s : string) :
  String.length s <= 78 -> "010"%char ∉ list_ascii_of_string s ->
  debugString (VStr s) = quote +:+ s +:+ quote.
Proof.
  intros Hlen Hnl. unfold debugString. rewrite (replace_newlines_id s Hnl).
  destruct (Nat.ltb_spec 78 (String.length s)); [lia|done].
Qed.

Lemma debugString_short_witness :
  debugString (VStr "SELECT 1;") = quote +:+ "SELECT 1;" +:+ quote.
Proof.
  apply debugString_short.
  - vm_compute. lia.
  - vm_compute. intros H.
    repeat (apply elem_of_cons in H as [H|H]; [discriminate H|]).
    by apply elem_of_nil in H.
Defined.



Lemma bind_own_agree params params' v n m a :
  params !! v = params' !! v ->
  bind_own params v n m a = bind_own params' v n m a.
Proof.
  intros Hv. unfold bind_own, has, params_get. by rewrite Hv.
Qed.

Lemma bind_all_agree params params' names n m a :
  (forall x, x ∈ names -> params !! x = params' !! x) ->
  bind_all params names n m a = bind_all params' names n m a.
Proof.
  revert n m a. induction names as [|w names IH]; intros n m a Hagree; simpl.
  { done. }
  rewrite (bind_own_agree params params') by (apply Hagree; by left).
  destruct (bind_own params' w n m a) as [e|[[n1 m1] a1]]; [done|].
  apply IH. intros x Hx. apply Hagree. by right.
Qed.

Lemma placeholders_nil_re_exec (s : string) :
  placeholders s = [] -> re_exec s = None.
Proof.
  induction s as [|c s IH]; simpl; [done|].
  destruct (Ascii.eqb c "$"), (name_prefix s) as [|d n];
    try discriminate; intros H; by rewrite IH.
Qed.



(** X5. Only the parameters that the template names matter: two objects
    without an own [__wrapped__] that agree on every placeholder of the
    template give the same SQL and the same positional values (or the
    same error), whatever else they hold. *)
Theorem unreferenced_parameters_ignored (sql : string)
    (props props' : gmap string value) :
  props !! wrapped_key = None -> props' !! wrapped_key = None ->
  (forall x, x ∈ placeholders sql -> props !! x = props' !! x) ->
  paramsToArray (VStr sql) (VObj props) = paramsToArray (VStr sql) (VObj props').
Proof.
  intros Hp Hp' Hagree. rewrite !paramsToArray_fold by done.
  by rewrite (bind_all_agree props props').
Qed.

Lemma unreferenced_parameters_ignored_witness :
  paramsToArray (VStr "SELECT * FROM t WHERE a = $a")
    (VObj (<["a" := VNum 1]> {[ "unused" := VStr "x" ]})) =
  paramsToArray (VStr "SELECT * FROM t WHERE a = $a") (VObj {[ "a" := VNum 1 ]}).
Proof.
  apply unreferenced_parameters_ignored; [reflexivity..|].
  intros x Hx. apply list_elem_of_In in Hx. vm_compute in Hx.
  destruct Hx as [<-|[]]. vm_compute. reflexivity.
Defined.

Lemma loop_no_match params p r n m a :
  re_exec r = None -> loop params p r n m a = SubstOk (p +:+ r) a.
Proof.
  apply (loop_elim (fun params p r n m a res =>
    re_exec r = None -> res = SubstOk (p +:+ r) a)); clear; intros; congruence.
Qed.

(** X6. A template without placeholders comes back as it is, with no
    positional values, whatever the parameter object holds: lodash is not
    called at all. *)
Theorem template_without_placeholders (sql : string) (props : gmap string value) :
  placeholders sql = [] ->
  paramsToArray (VStr sql) (VObj props) = SubstOk sql [].
Proof.
  intros Hnone%placeholders_nil_re_exec. unfold paramsToArray.
  by rewrite loop_no_match.
Qed.

Lemma template_without_placeholders_witness :
  paramsToArray (VStr "SELECT '$' || 5$ FROM t")
    (VObj {[ "__wrapped__" := VNum 1 ]}) =
  SubstOk "SELECT '$' || 5$ FROM t" [].
Proof. apply template_without_placeholders. reflexivity. Defined.

(** * More properties: clients, statements and row counts *)







(** Closes a goal on the clients held after a concrete trace. *)
Ltac solve_held :=
  unfold held_after; simpl; rewrite ?decide_True by done; done.

Section RestProperties.

Context {D : Type} {drv : Driver D} {drv_end : PoolEnd D}.
Implicit Types (w : World D) (c client : Client).

(** [queryWithClient], path by path. *)
Lemma queryWithClient_run client (sql params : value) (callback : ResultsCallback D) w :
  queryWithClient client sql params callback w =
  match paramsToArray sql params with
  | SubstErr err =>
      callback (inl (addData err [("sql", DVal sql); ("sqlParams", DVal params)])) w
  | SubstOk newSql newParams =>
      match pg_query client newSql (Some newParams) (driver w) with
      | (r, d) =>
          callback
            (match r with
             | inl err =>
                 inl (addData err
                   [("sqlError", sqlError_of err); ("sql", DVal sql);
                    ("sqlParams", DVal params); ("result", DRes None)])
             | inr result => inr result
             end)
            (mkWorld d (pool w) (trace w ++ [EQuery client newSql (Some newParams)]))
      end
  | SubstThrows => mkWorld (driver w) (pool w) (trace w ++ [EThrow])
  | SubstBeyond => mkWorld (driver w) (pool w) (trace w ++ [EBeyond])
  end.
Proof.
  unfold queryWithClient, client_query.
  destruct (paramsToArray sql params) as [err|newSql newParams| |]; try done.
  by destruct (pg_query client newSql (Some newParams) (driver w)) as [[e|r] d].
Qed.

(** [query] when the pool is closed, and when the checkout fails. *)
Lemma query_closed (sql params : value) (callback : ResultsCallback D) w :
  pool w = false ->
  query sql params callback w =
    callback (inl (new_Error "Connection pool is not open")) w.
Proof. intros Hpool. unfold query. by rewrite Hpool. Qed.

Lemma query_checkout_err (sql params : value) (callback : ResultsCallback D)
    w err oc d :
  pool w = true ->
  connect (driver w) = (ConnErr err oc, d) ->
  query sql params callback w =
    callback (inl (addData err
        [("sqlError", sqlError_of err); ("sql", DVal sql);
         ("sqlParams", DVal params)]))
      (match oc with
       | Some c =>
           mkWorld (release c (Some (RClient c)) d) (pool w)
             (trace w ++ [EConnect (ConnErr err oc); ERelease c (Some (RClient c))])
       | None => mkWorld d (pool w) (trace w ++ [EConnect (ConnErr err oc)])
       end).
Proof.
  intros Hpool Hconn. unfold query, pool_connect. rewrite Hpool, Hconn. simpl.
  unfold handleError, then_, done_of, emit, with_driver, ret.
  destruct oc as [c|]; simpl; by rewrite <- ?app_assoc, ?Hpool.
Qed.




(** X10. [endTransaction] with a success outcome sends [COMMIT] and
    nothing else, then releases the client with [done()], so the pool
    keeps the client even when the commit failed; the callback receives
    [null] exactly when the commit succeeded, and otherwise the commit
    error with the statement as context. *)
Theorem endTransaction_success_outcome client (callback : Callback D) w :
  exists surfaced w',
    endTransaction client (done_of client) None callback w = callback surfaced w' /\
    trace w' = trace w ++ [EQuery client "COMMIT" (Some []); ERelease client None] /\
    match (pg_query client "COMMIT" (Some []) (driver w)).1 with
    | inr _ => surfaced = None
    | inl err =>
        exists surfaced_err,
          surfaced = Some surfaced_err /\
          message surfaced_err = message err /\
          field surfaced_err "sql" = Some (DVal (VStr "COMMIT"))
    end.
Proof.
  unfold endTransaction. rewrite queryWithClient_plain.
  destruct (pg_query client "COMMIT" (Some []) (driver w)) as [[e|r] d]; simpl;
    unfold then_, done_of, emit, with_driver; simpl;
    (eexists _, _; split; [reflexivity|]; simpl; rewrite <- !app_assoc;
     split; [reflexivity|]); [|done].
  eexists. split; [reflexivity|]. split; [reflexivity|].
  unfold field, addData, assign. simpl. rewrite !lookup_assign_field.
  repeat (rewrite decide_False by done). by rewrite decide_True.
Qed.

(** X11. A transaction, begun and at once ended, leaves no client
    checked out on any path: whether the pool is closed, the checkout or
    [START TRANSACTION;] fails, and whatever the outcome and the closing
    statement do. *)
Theorem transaction_never_leaks (outcome : option Error) (callback : Callback D) w :
  exists surfaced t w',
    transaction outcome callback w = callback surfaced w' /\
    trace w' = trace w ++ t /\
    held_after [] t = [].
Proof.
  unfold transaction, beginTransaction.
  destruct (pool w) eqn:Hpool.
  - rewrite getClient_run by done.
    destruct (connect (driver w)) as [[c|err [c|]] d].
    + rewrite queryWithClient_plain. simpl.
      destruct (pg_query c "START TRANSACTION;" (Some []) d) as [[e|res] d2].
      * rewrite rollbackWithClient_run. simpl.
        destruct (pg_query c "ROLLBACK;" None d2) as [[e2|r2] d3];
          (eexists _, _, _; split; [reflexivity|]; simpl;
           rewrite <- !app_assoc; split; [reflexivity|solve_held]).
      * destruct outcome as [err|]; unfold endTransaction.
        -- rewrite rollbackWithClient_run. simpl.
           destruct (pg_query c "ROLLBACK;" None d2) as [[e2|r2] d3];
             (eexists _, _, _; split; [reflexivity|]; simpl;
              rewrite <- !app_assoc; split; [reflexivity|solve_held]).
        -- rewrite queryWithClient_plain. simpl.
           destruct (pg_query c "COMMIT" (Some []) d2) as [[e2|r2] d3];
             unfold then_, done_of, emit, with_driver; simpl;
             (eexists _, _, _; split; [reflexivity|]; simpl;
              rewrite <- !app_assoc; split; [reflexivity|solve_held]).
    + eexists _, _, _. split; [reflexivity|]. simpl.
      split; [reflexivity|solve_held].
    + eexists _, _, _. split; [reflexivity|]. simpl.
      split; [reflexivity|solve_held].
  - unfold getClient. rewrite Hpool. simpl.
    eexists _, [], w. by rewrite app_nil_r.
Qed.

(** X12. When the substitution succeeds, [query] leaves no client checked
    out on any path, and it sends at most the one rewritten statement,
    with the positional values. *)
Theorem query_releases_checkout (sql params : value) newSql newParams
    (callback : ResultsCallback D) w :
  paramsToArray sql params = SubstOk newSql newParams ->
  exists r t w',
    query sql params callback w = callback r w' /\
    trace w' = trace w ++ t /\
    held_after [] t = [] /\
    (forall c sql' params',
       EQuery c sql' params' ∈ t -> sql' = newSql /\ params' = Some newParams) /\
    count is_query t <= 1.
Proof.
  intros Hsubst.
  destruct (pool w) eqn:Hpool.
  - destruct (connect (driver w)) as [[c|err oc] d] eqn:Hconn.
    + rewrite (query_run _ _ _ _ c d) by done. rewrite Hsubst.
      destruct (pg_query c newSql (Some newParams) d) as [[e|res] d2];
        (eexists _, _, _; split; [reflexivity|]; simpl;
         split; [reflexivity|]; split; [solve_held|]; split; [|vm_compute; lia];
         intros c' sql' params' Hin;
         repeat (apply elem_of_cons in Hin as [Hin|Hin]; [by simplify_eq|]);
         by apply elem_of_nil in Hin).
    + rewrite (query_checkout_err _ _ _ _ err oc d) by done.
      destruct oc as [c|];
        (eexists _, _, _; split; [reflexivity|]; simpl;
         split; [reflexivity|]; split; [solve_held|]; split; [|vm_compute; lia];
         intros c' sql' params' Hin;
         repeat (apply elem_of_cons in Hin as [Hin|Hin]; [by simplify_eq|]);
         by apply elem_of_nil in Hin).
  - rewrite query_closed by done.
    eexists _, [], w. rewrite app_nil_r. split_and!; try done.
    + intros c sql' params' Hin. by apply elem_of_nil in Hin.
    + vm_compute. lia.
Qed.

(** X13. [query] on a failed checkout sends no statement: it releases the
    client if the pool handed one out with the error, and passes the
    connection error on with the statement and the parameters attached. *)
Theorem query_checkout_fails (sql params : value) (callback : ResultsCallback D)
    w err oc d :
  pool w = true ->
  connect (driver w) = (ConnErr err oc, d) ->
  exists surfaced t w',
    query sql params callback w = callback (inl surfaced) w' /\
    trace w' = trace w ++ t /\
    count is_query t = 0 /\
    held_after [] t = [] /\
    message surfaced = message err /\
    field surfaced "sql" = Some (DVal sql) /\
    field surfaced "sqlParams" = Some (DVal params).
Proof.
  intros Hpool Hconn. rewrite (query_checkout_err _ _ _ _ err oc d) by done.
  assert (forall e : Error,
    field (addData e [("sqlError", sqlError_of e); ("sql", DVal sql);
                      ("sqlParams", DVal params)]) "sql" = Some (DVal sql) /\
    field (addData e [("sqlError", sqlError_of e); ("sql", DVal sql);
                      ("sqlParams", DVal params)]) "sqlParams" = Some (DVal params))
    as Hfields.
  { intros e. unfold field, addData, assign. simpl.
    rewrite !lookup_assign_field. split.
    - rewrite decide_False by done. by rewrite decide_True.
    - by rewrite decide_True. }
  destruct oc as [c|];
    (eexists _, _, _; split; [reflexivity|]; simpl;
     split; [reflexivity|]; split; [done|]; split; [solve_held|];
     split; [done|apply Hfields]).
Qed.

(** X14. A stored-procedure call never leaves a client checked out, on
    any path: its parameters are an array, so no substitution can fail.
    When the checkout succeeds the one statement sent is
    [SELECT * FROM f($1,...,$n)] with the [n] parameters as given, and the
    client is released before the callback runs. *)
Theorem call_releases_checkout (functionName : string) (params : list value)
    (callback : ResultsCallback D) w :
  exists r t w',
    call functionName params callback w = callback r w' /\
    trace w' = trace w ++ t /\
    held_after [] t = [] /\
    forall c d,
      pool w = true -> connect (driver w) = (ConnOk c, d) ->
      exists arg,
        t = [EConnect (ConnOk c);
             EQuery c (call_sql functionName params) (Some params);
             ERelease c arg].
Proof.
  unfold call.
  destruct (pool w) eqn:Hpool.
  - destruct (connect (driver w)) as [[c|err oc] d] eqn:Hconn.
    + rewrite (query_run _ _ _ _ c d) by done. simpl.
      destruct (pg_query c (call_sql functionName params) (Some params) d)
        as [[e|res] d2];
        (eexists _, _, _; split; [reflexivity|]; simpl;
         split; [reflexivity|]; split; [solve_held|];
         intros c' d' _ [= <- <-]; by eexists).
    + rewrite (query_checkout_err _ _ _ _ err oc d) by done.
      destruct oc as [c|];
        (eexists _, _, _; split; [reflexivity|]; simpl;
         split; [reflexivity|]; split; [solve_held|]; by intros c' d' _ [=]).
  - rewrite query_closed by done.
    eexists _, [], w. rewrite app_nil_r. split_and!; try done.
Qed.

(** X15. [queryOneRow] checks the row count only after [query] has
    released the client: when the statement ran, the client is released
    once, and the callback receives the result if it has exactly one row
    and otherwise an error [Incorrect rowCount: n] that carries the
    statement and the parameters. *)
Theorem queryOneRow_checks_after_release (sql params : value)
    (callback : ResultsCallback D) w c d1 newSql newParams result d2 :
  pool w = true ->
  connect (driver w) = (ConnOk c, d1) ->
  paramsToArray sql params = SubstOk newSql newParams ->
  pg_query c newSql (Some newParams) d1 = (inr result, d2) ->
  queryOneRow sql params callback w =
    callback
      (if decide (rowCount result = 1) then inr result
       else inl (mkError ("Incorrect rowCount: " +:+ string_of_nat (rowCount result))
                   [("sql", DVal sql); ("sqlParams", DVal params)]))
      (mkWorld (release c None d2) (pool w)
         (trace w ++ [EConnect (ConnOk c); EQuery c newSql (Some newParams);
                      ERelease c None])).
Proof.
  intros Hpool Hconn Hsubst Hquery. unfold queryOneRow.
  rewrite (query_run _ _ _ _ c d1) by done. rewrite Hsubst, Hquery.
  destruct (Nat.eqb_spec (rowCount result) 1) as [H1|H1]; simpl.
  - by rewrite decide_True.
  - by rewrite decide_False.
Qed.

(** X16. [queryZeroOrOneRow] accepts a result of no row or one row and
    refuses any larger one with [Incorrect rowCount: n]; as for
    [queryOneRow], the client is already released when the count is
    checked. *)
Theorem queryZeroOrOneRow_checks_after_release (sql params : value)
    (callback : ResultsCallback D) w c d1 newSql newParams result d2 :
  pool w = true ->
  connect (driver w) = (ConnOk c, d1) ->
  paramsToArray sql params = SubstOk newSql newParams ->
  pg_query c newSql (Some newParams) d1 = (inr result, d2) ->
  queryZeroOrOneRow sql params callback w =
    callback
      (if decide (rowCount result <= 1) then inr result
       else inl (mkError ("Incorrect rowCount: " +:+ string_of_nat (rowCount result))
                   [("sql", DVal sql); ("sqlParams", DVal params)]))
      (mkWorld (release c None d2) (pool w)
         (trace w ++ [EConnect (ConnOk c); EQuery c newSql (Some newParams);
                      ERelease c None])).
Proof.
  intros Hpool Hconn Hsubst Hquery. unfold queryZeroOrOneRow.
  rewrite (query_run _ _ _ _ c d1) by done. rewrite Hsubst, Hquery.
  destruct (Nat.ltb_spec 1 (rowCount result)) as [H1|H1]; simpl.
  - rewrite decide_False by lia. done.
  - by rewrite decide_True.
Qed.


(** X18. The row-count variants on a caller's client leave the release to
    the caller, like [queryWithClient]: even when the count is refused
    nothing is released, no second statement is sent, and the error
    carries the result that was refused. *)
Theorem queryWithClientOneRow_keeps_client client (sql params : value)
    (callback : ResultsCallback D) w newSql newParams result d :
  paramsToArray sql params = SubstOk newSql newParams ->
  pg_query client newSql (Some newParams) (driver w) = (inr result, d) ->
  let w' := mkWorld d (pool w) (trace w ++ [EQuery client newSql (Some newParams)]) in
  let refused :=
    inl (mkError ("Incorrect rowCount: " +:+ string_of_nat (rowCount result))
           [("sql", DVal sql); ("sqlParams", DVal params);
            ("result", DRes (Some result))]) in
  queryWithClientOneRow client sql params callback w =
    callback (if decide (rowCount result = 1) then inr result else refused) w' /\
  queryWithClientZeroOrOneRow client sql params callback w =
    callback (if decide (rowCount result <= 1) then inr result else refused) w'.
Proof.
  intros Hsubst Hquery. unfold queryWithClientOneRow, queryWithClientZeroOrOneRow.
  rewrite !queryWithClient_run, Hsubst, Hquery. cbn zeta. split.
  - destruct (Nat.eqb_spec (rowCount result) 1) as [H1|H1]; simpl.
    + by rewrite decide_True.
    + by rewrite decide_False.
  - destruct (Nat.ltb_spec 1 (rowCount result)) as [H1|H1]; simpl.
    + rewrite decide_False by lia. done.
    + by rewrite decide_True.
Qed.



(** X21. After a [close] that succeeded the module refuses to work until
    [init] is called again: [query] and [getClient] answer
    [Connection pool is not open] and do not reach the driver. *)
Theorem closed_pool_refuses (sql params : value) (callback : ResultsCallback D)
    (client_callback : ClientCallback D) w d :
  pool w = true -> pool_end (driver w) = (None, d) ->
  close (fun _ => query sql params callback) w =
    callback (inl (new_Error "Connection pool is not open"))
      (mkWorld d false (trace w)) /\
  close (fun _ => getClient client_callback) w =
    client_callback (inl (new_Error "Connection pool is not open"))
      (mkWorld d false (trace w)).
Proof.
  intros Hpool Hend. unfold close, query, getClient.
  rewrite Hpool, Hend. done.
Qed.

End RestProperties.

(** * The properties above on the scripted driver *)

Lemma query_releases_checkout_witness :
  exists r t w',
    query (VStr "SELECT $a") (VObj {[ "a" := VNum 1 ]}) record_results
      (scripted_world [RConnect (ConnOk 7); RQuery (inr no_rows)])
    = record_results r w' /\
    trace w' =
      trace (scripted_world [RConnect (ConnOk 7); RQuery (inr no_rows)]) ++ t /\
    held_after [] t = [] /\
    (forall c sql' params',
       EQuery c sql' params' ∈ t ->
       sql' = "SELECT $1" /\ params' = Some [VNum 1]) /\
    count is_query t <= 1.
Proof.
  apply (query_releases_checkout (VStr "SELECT $a") (VObj {[ "a" := VNum 1 ]})
           "SELECT $1" [VNum 1] record_results
           (scripted_world [RConnect (ConnOk 7); RQuery (inr no_rows)])).
  vm_compute. reflexivity.
Defined.

Lemma query_checkout_fails_witness :
  exists surfaced t w',
    query (VStr "SELECT 1") (VArr []) record_results
      (scripted_world [RConnect (ConnErr (new_Error "too many clients") (Some 3))])
    = record_results (inl surfaced) w' /\
    trace w' =
      trace (scripted_world
               [RConnect (ConnErr (new_Error "too many clients") (Some 3))]) ++ t /\
    count is_query t = 0 /\
    held_after [] t = [] /\
    message surfaced = message (new_Error "too many clients") /\
    field surfaced "sql" = Some (DVal (VStr "SELECT 1")) /\
    field surfaced "sqlParams" = Some (DVal (VArr [])).
Proof.
  apply (query_checkout_fails (VStr "SELECT 1") (VArr []) record_results
           (scripted_world
              [RConnect (ConnErr (new_Error "too many clients") (Some 3))])
           (new_Error "too many clients") (Some 3) []);
    reflexivity.
Defined.

Lemma queryOneRow_checks_after_release_witness :
  queryOneRow (VStr "SELECT $a") (VObj {[ "a" := VNum 1 ]}) record_results
    (scripted_world [RConnect (ConnOk 7); RQuery (inr no_rows)])
  = record_results
      (if decide (rowCount no_rows = 1) then inr no_rows
       else inl (mkError ("Incorrect rowCount: " +:+ string_of_nat (rowCount no_rows))
                   [("sql", DVal (VStr "SELECT $a"));
                    ("sqlParams", DVal (VObj {[ "a" := VNum 1 ]}))]))
      (mkWorld (release 7 None [])
         (pool (scripted_world [RConnect (ConnOk 7); RQuery (inr no_rows)]))
         (trace (scripted_world [RConnect (ConnOk 7); RQuery (inr no_rows)]) ++
          [EConnect (ConnOk 7); EQuery 7 "SELECT $1" (Some [VNum 1]);
           ERelease 7 None])).
Proof.
  apply (queryOneRow_checks_after_release
           (VStr "SELECT $a") (VObj {[ "a" := VNum 1 ]}) record_results
           (scripted_world [RConnect (ConnOk 7); RQuery (inr no_rows)])
           7 [RQuery (inr no_rows)] "SELECT $1" [VNum 1] no_rows []);
    [reflexivity|reflexivity|vm_compute; reflexivity|reflexivity].
Defined.

Lemma queryZeroOrOneRow_checks_after_release_witness :
  queryZeroOrOneRow (VStr "SELECT $a") (VObj {[ "a" := VNum 1 ]}) record_results
    (scripted_world [RConnect (ConnOk 7); RQuery (inr no_rows)])
  = record_results
      (if decide (rowCount no_rows <= 1) then inr no_rows
       else inl (mkError ("Incorrect rowCount: " +:+ string_of_nat (rowCount no_rows))
                   [("sql", DVal (VStr "SELECT $a"));
                    ("sqlParams", DVal (VObj {[ "a" := VNum 1 ]}))]))
      (mkWorld (release 7 None [])
         (pool (scripted_world [RConnect (ConnOk 7); RQuery (inr no_rows)]))
         (trace (scripted_world [RConnect (ConnOk 7); RQuery (inr no_rows)]) ++
          [EConnect (ConnOk 7); EQuery 7 "SELECT $1" (Some [VNum 1]);
           ERelease 7 None])).
Proof.
  apply (queryZeroOrOneRow_checks_after_release
           (VStr "SELECT $a") (VObj {[ "a" := VNum 1 ]}) record_results
           (scripted_world [RConnect (ConnOk 7); RQuery (inr no_rows)])
           7 [RQuery (inr no_rows)] "SELECT $1" [VNum 1] no_rows []);
    [reflexivity|reflexivity|vm_compute; reflexivity|reflexivity].
Defined.

(** The two variants on an empty result: one refuses it, the other
    accepts it. *)
Example one_row_variants_on_empty :
  trace (queryOneRow (VStr "SELECT 1") (VArr []) record_results
           (scripted_world [RConnect (ConnOk 7); RQuery (inr no_rows)]))
  = [EConnect (ConnOk 7); EQuery 7 "SELECT 1" (Some []); ERelease 7 None;
     EResults (inl (mkError "Incorrect rowCount: 0"
       [("sql", DVal (VStr "SELECT 1")); ("sqlParams", DVal (VArr []))]))] /\
  trace (queryZeroOrOneRow (VStr "SELECT 1") (VArr []) record_results
           (scripted_world [RConnect (ConnOk 7); RQuery (inr no_rows)]))
  = [EConnect (ConnOk 7); EQuery 7 "SELECT 1" (Some []); ERelease 7 None;
     EResults (inr no_rows)].
Proof. vm_compute. split; reflexivity. Qed.


Lemma queryWithClientOneRow_keeps_client_witness :
  let w := scripted_world [RQuery (inr (mkQResult 2 [VNull; VNull]))] in
  let w' := mkWorld [] (pool w) (trace w ++ [EQuery 7 "SELECT 1" (Some [])]) in
  let refused :=
    inl (mkError ("Incorrect rowCount: " +:+
                  string_of_nat (rowCount (mkQResult 2 [VNull; VNull])))
           [("sql", DVal (VStr "SELECT 1")); ("sqlParams", DVal (VArr []));
            ("result", DRes (Some (mkQResult 2 [VNull; VNull])))]) in
  queryWithClientOneRow 7 (VStr "SELECT 1") (VArr []) record_results w =
    record_results
      (if decide (rowCount (mkQResult 2 [VNull; VNull]) = 1)
       then inr (mkQResult 2 [VNull; VNull]) else refused) w' /\
  queryWithClientZeroOrOneRow 7 (VStr "SELECT 1") (VArr []) record_results w =
    record_results
      (if decide (rowCount (mkQResult 2 [VNull; VNull]) <= 1)
       then inr (mkQResult 2 [VNull; VNull]) else refused) w'.
Proof.
  apply (queryWithClientOneRow_keeps_client 7 (VStr "SELECT 1") (VArr [])
           record_results
           (scripted_world [RQuery (inr (mkQResult 2 [VNull; VNull]))])
           "SELECT 1" [] (mkQResult 2 [VNull; VNull]) []);
    reflexivity.
Defined.

Lemma closed_pool_refuses_witness :
  close (fun _ => query (VStr "SELECT 1") (VArr []) record_results)
    (scripted_world [RPool None; RConnect (ConnOk 7)])
  = record_results (inl (new_Error "Connection pool is not open"))
      (mkWorld [RConnect (ConnOk 7)] false
         (trace (scripted_world [RPool None; RConnect (ConnOk 7)]))) /\
  close (fun _ => getClient record_client)
    (scripted_world [RPool None; RConnect (ConnOk 7)])
  = record_client (inl (new_Error "Connection pool is not open"))
      (mkWorld [RConnect (ConnOk 7)] false
         (trace (scripted_world [RPool None; RConnect (ConnOk 7)]))).
Proof.
  apply (closed_pool_refuses (VStr "SELECT 1") (VArr []) record_results
           record_client (scripted_world [RPool None; RConnect (ConnOk 7)])
           [RConnect (ConnOk 7)]);
    reflexivity.
Defined.

(** A stored-procedure call with three arguments. *)
Example call_three_arguments :
  trace (call "course_instances_select" [VNum 1; VStr "Sp19"; VNull] record_results
           (scripted_world [RConnect (ConnOk 7); RQuery (inr no_rows)]))
  = [EConnect (ConnOk 7);
     EQuery 7 "SELECT * FROM course_instances_select($1,$2,$3)"
       (Some [VNum 1; VStr "Sp19"; VNull]);
     ERelease 7 None;
     EResults (inr no_rows)].
Proof. vm_compute. reflexivity. Qed.

(** X22. [query] with a parameter object that has an own [__wrapped__]
    and no [__actions__]: the [TypeError] of lodash leaves the callback of
    [pool.connect], so the callback of [query] is never called and the
    client that was checked out is never released. *)
Theorem query_wrapped_params_throws :
  query (VStr "SELECT $a") (VObj {[ "__wrapped__" := VObj {[ "a" := VNum 1 ]} ]})
    record_results (scripted_world [RConnect (ConnOk 7)])
  = mkWorld [] true [EConnect (ConnOk 7); EThrow] /\
  held_after [] [EConnect (ConnOk 7); EThrow] = [7].
Proof. vm_compute. split; reflexivity. Qed.
